(** * skpm/guppy: the read-from-disk service

    A shallow embedding of [src/services/read-from-disk.service.js] and of
    the part of the JavaScript runtime it runs on (values, [JSON], promises,
    [fs], [path], and [async/map]), followed by the properties of the
    service that the specification states.

    Conventions of the embedding.
    - Text is Rocq's [string]; a character stands for one code unit, so the
      model covers text whose code units lie below 256.  [fs] hands file
      contents to the service as text and takes text back.
    - A JavaScript number is modelled by a mathematical integer ([Z]),
      which is exact for the safe integers, or is the negative zero.
      Number literals with a fraction or an exponent are outside the
      model: the [JSON.parse] of the model does not read a text that
      holds one.
    - An object is the list of its own properties in insertion order (the
      engine's reordering of integer-like keys is not modelled).  Property
      reads see own properties only: none of the keys the service reads is
      defined on a builtin prototype.
    - A promise is identified with the way it settles, [Pending] standing
      for a promise that never settles. *)

From Stdlib Require Import ZArith Ascii String Bool Lia.
From stdpp Require Import gmap strings list.

Local Open Scope Z_scope.
Local Open Scope stdpp_scope.

(* ================================================================= *)
(** ** Errors, exceptions, promises *)

(** The exceptions the service can meet: a failed [fs] call carries the
    system error code ([err.code]); [JSON.parse] throws [SyntaxError];
    a property access on [null] or [undefined], an assignment to a property
    of a primitive (the module is strict code) and a coercion without a
    primitive result throw [TypeError]. *)
Inductive error : Type :=
| SystemError (code : string)
| SyntaxError
| TypeError.

(** A synchronous computation: it returns or it throws. *)
Inductive result (A : Type) : Type :=
| Ok (a : A)
| Throw (e : error).
Arguments Ok {A} a.
Arguments Throw {A} e.

Definition result_bind {A B} (r : result A) (k : A -> result B) : result B :=
  match r with
  | Ok a => k a
  | Throw e => Throw e
  end.

Notation "'let!' x ':=' r 'in' k" := (result_bind r (fun x => k))
  (at level 10, x name, r at level 100, k at level 200).

(** The settled state of a promise. *)
Inductive promise (A : Type) : Type :=
| Fulfilled (a : A)
| Rejected (e : error)
| Pending.
Arguments Fulfilled {A} a.
Arguments Rejected {A} e.
Arguments Pending {A}.

(* ================================================================= *)
(** ** JavaScript values *)

Unset Elimination Schemes.
Inductive value : Type :=
| VUndefined
| VNull
| VBool (b : bool)
| VNum (n : Z)
| VNegZero
| VStr (s : string)
| VArr (elems : list value) (named : list (string * value))
| VObj (props : list (string * value)).
Set Elimination Schemes.

(** An array carries its elements and, apart from them, the named
    properties that were assigned to it ([named] is empty for an array
    that comes out of [JSON.parse]).  [VNegZero] is the number [-0],
    which is not the number [0] ([VNum 0]) although it is printed like
    it. *)

Definition props := list (string * value).

(** Own-property lookup, [undefined] when the key is absent. *)
Fixpoint own (ps : props) (k : string) : value :=
  match ps with
  | [] => VUndefined
  | (k', v) :: ps' => if String.eqb k' k then v else own ps' k
  end.

Definition has_own (ps : props) (k : string) : bool :=
  existsb (fun p => String.eqb (fst p) k) ps.

(** [o[k] = v] on the property list: an existing key keeps its place, a
    new key goes last. *)
Fixpoint set_prop (ps : props) (k : string) (v : value) : props :=
  match ps with
  | [] => [(k, v)]
  | (k', v') :: ps' =>
      if String.eqb k' k then (k, v) :: ps' else (k', v') :: set_prop ps' k v
  end.

Definition keys (ps : props) : list string := map fst ps.

(** *** Decimal numerals ([Number.prototype.toString] on integers) *)

Definition digit_char (d : N) : ascii := ascii_of_N (48 + d).

Fixpoint dec_go (fuel : nat) (n : N) (acc : string) : string :=
  match fuel with
  | O => acc
  | S fuel' =>
      let acc' := String (digit_char (n mod 10)) acc in
      if (n <? 10)%N then acc' else dec_go fuel' (n / 10) acc'
  end.

Definition dec (n : N) : string := dec_go (S (N.to_nat (N.size n))) n "".

Definition number_to_string (n : Z) : string :=
  if n <? 0 then String "-" (dec (Z.to_N (- n))) else dec (Z.to_N n).

(** The array index a key denotes, if it is one below [len]. *)
Definition index_of (k : string) (len : nat) : option nat :=
  find (fun i => String.eqb (dec (N.of_nat i)) k) (seq 0 len).

(** *** Property read, assignment, coercions *)

(** [v[k]] for a [v] that is neither [null] nor [undefined]. *)
Definition field (v : value) (k : string) : value :=
  match v with
  | VObj ps => own ps k
  | VArr elems named =>
      if String.eqb k "length" then VNum (Z.of_nat (length elems))
      else match index_of k (length elems) with
           | Some i => nth i elems VUndefined
           | None => own named k
           end
  | VStr s =>
      if String.eqb k "length" then VNum (Z.of_nat (String.length s))
      else match index_of k (String.length s) with
           | Some i => match String.get i s with
                       | Some c => VStr (String c "")
                       | None => VUndefined
                       end
           | None => VUndefined
           end
  | _ => VUndefined
  end.

(** [v[k]]: reading a property of [null] or [undefined] throws. *)
Definition get (v : value) (k : string) : result value :=
  match v with
  | VUndefined | VNull => Throw TypeError
  | _ => Ok (field v k)
  end.

(** [v[k] = x] in strict code, for a key [k] that is not an array index
    and not [length] (the service assigns its reserved keys only): it
    throws on [null], [undefined] and on a primitive. *)
Definition assign (v : value) (k : string) (x : value) : result value :=
  match v with
  | VObj ps => Ok (VObj (set_prop ps k x))
  | VArr elems named => Ok (VArr elems (set_prop named k x))
  | _ => Throw TypeError
  end.

(** [!!v] *)
Definition truthy (v : value) : bool :=
  match v with
  | VUndefined | VNull | VNegZero => false
  | VBool b => b
  | VNum n => negb (n =? 0)
  | VStr s => negb (String.eqb s "")
  | VArr _ _ | VObj _ => true
  end.

(** [a || b] *)
Definition or_else (a b : value) : value := if truthy a then a else b.

(** [ToPropertyKey] on a value without symbols or functions: the string a
    computed key [[v]] denotes.  An object with an own [toString] property
    (never callable here) has no primitive value and the coercion throws;
    an array is joined by [Array.prototype.toString]. *)
Fixpoint to_property_key (v : value) : result string :=
  match v with
  | VUndefined => Ok "undefined"
  | VNull => Ok "null"
  | VBool true => Ok "true"
  | VBool false => Ok "false"
  | VNum n => Ok (number_to_string n)
  | VNegZero => Ok "0"
  | VStr s => Ok s
  | VObj ps =>
      if has_own ps "toString" then Throw TypeError else Ok "[object Object]"
  | VArr elems named =>
      if has_own named "toString" then Throw TypeError
      else if has_own named "join" then Ok "[object Array]"
      else
        (fix join (l : list value) : result string :=
           match l with
           | [] => Ok ""
           | e :: l' =>
               let! s := match e with
                         | VUndefined | VNull => Ok ""
                         | _ => to_property_key e
                         end in
               match l' with
               | [] => Ok s
               | _ => let! t := join l' in Ok (s +:+ "," +:+ t)
               end
           end) elems
  end.

(** [Object.keys(v)] for a [v] that is neither [null] nor [undefined]. *)
Definition Object_keys (v : value) : list string :=
  match v with
  | VObj ps => keys ps
  | VArr elems named =>
      map (fun i => dec (N.of_nat i)) (seq 0 (length elems)) ++ keys named
  | VStr s => map (fun i => dec (N.of_nat i)) (seq 0 (String.length s))
  | _ => []
  end.

(* ================================================================= *)
(** ** The [JSON] object *)

Module JSON.

Definition dquote : ascii := "034"%char.
Definition backslash : ascii := "092"%char.
Definition newline : ascii := "010"%char.

Fixpoint spaces (n : nat) : string :=
  match n with
  | O => ""
  | S n' => String " " (spaces n')
  end.

(** *** [JSON.stringify(v, null, 2)] *)

Definition hex_digit (d : N) : ascii :=
  if (d <? 10)%N then ascii_of_N (48 + d) else ascii_of_N (87 + d).

(** [QuoteJSONString], one code unit. *)
Definition escape_char (c : ascii) : string :=
  let n := N_of_ascii c in
  if Ascii.eqb c dquote then String backslash (String dquote "")
  else if Ascii.eqb c backslash then String backslash (String backslash "")
  else if (n =? 8)%N then String backslash "b"
  else if (n =? 9)%N then String backslash "t"
  else if (n =? 10)%N then String backslash "n"
  else if (n =? 12)%N then String backslash "f"
  else if (n =? 13)%N then String backslash "r"
  else if (n <? 32)%N then
    String backslash
      ("u00" +:+ String (hex_digit (n / 16)) (String (hex_digit (n mod 16)) ""))
  else String c "".

Fixpoint escape (s : string) : string :=
  match s with
  | "" => ""
  | String c s' => escape_char c +:+ escape s'
  end.

Definition quote (s : string) : string :=
  String dquote (escape s +:+ String dquote "").

(** The separator between the items of a non-empty array or object. *)
Definition separator (indent : nat) : string :=
  String "," (String newline (spaces indent)).

Definition wrap (opening closing : ascii) (stepback indent : nat)
    (partial : list string) : string :=
  String opening (String newline (spaces indent
    +:+ String.concat (separator indent) partial
    +:+ String newline (spaces stepback +:+ String closing ""))).

(** [SerializeJSONProperty] with a gap of two spaces; [None] is the
    [undefined] that [JSON.stringify] answers on [undefined].  Inside an
    array [undefined] is written [null]; inside an object a property whose
    value is [undefined] is left out.  The named properties of an array
    are not written. *)
Fixpoint serialize (stepback : nat) (v : value) : option string :=
  let indent := (stepback + 2)%nat in
  match v with
  | VUndefined => None
  | VNull => Some "null"
  | VBool true => Some "true"
  | VBool false => Some "false"
  | VNum n => Some (number_to_string n)
  | VNegZero => Some "0"
  | VStr s => Some (quote s)
  | VArr elems _ =>
      match elems with
      | [] => Some "[]"
      | _ =>
          Some (wrap "[" "]" stepback indent
                  (map (fun e => default "null" (serialize indent e)) elems))
      end
  | VObj ps =>
      match omap (fun p : string * value =>
                    let '(k, x) := p in
                    match serialize indent x with
                    | Some s => Some (quote k +:+ String ":" (String " " s))
                    | None => None
                    end) ps with
      | [] => Some "{}"
      | partial => Some (wrap "{" "}" stepback indent partial)
      end
  end.

Definition stringify (v : value) : option string := serialize 0 v.

(** *** [JSON.parse(text)] *)

Definition is_ws (c : ascii) : bool :=
  Ascii.eqb c " " || Ascii.eqb c "009" || Ascii.eqb c "010" || Ascii.eqb c "013".

Fixpoint skip_ws (s : string) : string :=
  match s with
  | String c s' => if is_ws c then skip_ws s' else s
  | "" => ""
  end.

(** [strip p s]: [s] without its prefix [p]. *)
Fixpoint strip (p s : string) : option string :=
  match p with
  | "" => Some s
  | String a p' =>
      match s with
      | String b s' => if Ascii.eqb a b then strip p' s' else None
      | "" => None
      end
  end.

Definition is_digit (c : ascii) : bool :=
  let n := N_of_ascii c in (48 <=? n)%N && (n <=? 57)%N.

Definition digit_val (c : ascii) : N := (N_of_ascii c - 48)%N.

Fixpoint read_digits (s : string) (acc : N) : N * string :=
  match s with
  | String c s' =>
      if is_digit c then read_digits s' (10 * acc + digit_val c)%N else (acc, s)
  | "" => (acc, s)
  end.

(** The integer part of a number: [0], or a non-zero digit and digits. *)
Definition parse_int (s : string) : option (N * string) :=
  match s with
  | String c s' =>
      if Ascii.eqb c "0" then
        match s' with
        | String c' _ => if is_digit c' then None else Some (0%N, s')
        | "" => Some (0%N, s')
        end
      else if is_digit c then Some (read_digits s 0%N)
      else None
  | "" => None
  end.

(** A fraction or an exponent after the integer part is not modelled. *)
Definition integer_ends (s : string) : bool :=
  match s with
  | String c _ => negb (Ascii.eqb c "." || Ascii.eqb c "e" || Ascii.eqb c "E")
  | "" => true
  end.

Definition parse_number (s : string) : option (Z * string) :=
  match s with
  | String c s' =>
      if Ascii.eqb c "-" then
        match parse_int s' with
        | Some (n, r) => if integer_ends r then Some (- Z.of_N n, r) else None
        | None => None
        end
      else
        match parse_int s with
        | Some (n, r) => if integer_ends r then Some (Z.of_N n, r) else None
        | None => None
        end
  | "" => None
  end.

Definition hex_val (c : ascii) : option N :=
  let n := N_of_ascii c in
  if is_digit c then Some (n - 48)%N
  else if (97 <=? n)%N && (n <=? 102)%N then Some (n - 87)%N
  else if (65 <=? n)%N && (n <=? 70)%N then Some (n - 55)%N
  else None.

(** The code unit of [\uXXXX], when it lies in the modelled alphabet. *)
Definition unicode_escape (a b c d : ascii) : option ascii :=
  match hex_val a, hex_val b, hex_val c, hex_val d with
  | Some x, Some y, Some z, Some w =>
      let n := (((x * 16 + y) * 16 + z) * 16 + w)%N in
      if (n <? 256)%N then Some (ascii_of_N n) else None
  | _, _, _, _ => None
  end.

Definition simple_escape (e : ascii) : option ascii :=
  if Ascii.eqb e dquote then Some dquote
  else if Ascii.eqb e backslash then Some backslash
  else if Ascii.eqb e "/" then Some "/"%char
  else if Ascii.eqb e "b" then Some "008"%char
  else if Ascii.eqb e "f" then Some "012"%char
  else if Ascii.eqb e "n" then Some "010"%char
  else if Ascii.eqb e "r" then Some "013"%char
  else if Ascii.eqb e "t" then Some "009"%char
  else None.

Definition push (c : ascii) (r : option (string * string))
    : option (string * string) :=
  match r with
  | Some (str, rest) => Some (String c str, rest)
  | None => None
  end.

(** The characters of a string literal after its opening quote, up to and
    including the closing quote. *)
Fixpoint parse_chars (s : string) : option (string * string) :=
  match s with
  | "" => None
  | String c s1 =>
      if Ascii.eqb c dquote then Some ("", s1)
      else if Ascii.eqb c backslash then
        match s1 with
        | String e s2 =>
            if Ascii.eqb e "u" then
              match s2 with
              | String a (String b (String x (String y s3))) =>
                  match unicode_escape a b x y with
                  | Some u => push u (parse_chars s3)
                  | None => None
                  end
              | _ => None
              end
            else
              match simple_escape e with
              | Some u => push u (parse_chars s2)
              | None => None
              end
        | "" => None
        end
      else if (N_of_ascii c <? 32)%N then None
      else push c (parse_chars s1)
  end.

(** Duplicate member names: the last value wins, at the place of the
    first occurrence. *)
Definition members_to_props (ms : list (string * value)) : props :=
  fold_left (fun acc p => set_prop acc (fst p) (snd p)) ms [].

(** [closes c s]: past white space, [s] starts with the bracket [c]. *)
Definition closes (c : ascii) (s : string) : option string :=
  match skip_ws s with
  | String c' s' => if Ascii.eqb c' c then Some s' else None
  | "" => None
  end.

Fixpoint parse_value (fuel : nat) (s : string) : option (value * string) :=
  match fuel with
  | O => None
  | S fuel' =>
      match skip_ws s with
      | "" => None
      | String c s1 =>
          if Ascii.eqb c "{" then
            match closes "}" s1 with
            | Some s2 => Some (VObj [], s2)
            | None =>
                match parse_members fuel' s1 with
                | Some (ms, s2) => Some (VObj (members_to_props ms), s2)
                | None => None
                end
            end
          else if Ascii.eqb c "[" then
            match closes "]" s1 with
            | Some s2 => Some (VArr [] [], s2)
            | None =>
                match parse_elements fuel' s1 with
                | Some (es, s2) => Some (VArr es [], s2)
                | None => None
                end
            end
          else if Ascii.eqb c dquote then
            match parse_chars s1 with
            | Some (str, s2) => Some (VStr str, s2)
            | None => None
            end
          else if Ascii.eqb c "n" then
            match strip "ull" s1 with
            | Some s2 => Some (VNull, s2)
            | None => None
            end
          else if Ascii.eqb c "t" then
            match strip "rue" s1 with
            | Some s2 => Some (VBool true, s2)
            | None => None
            end
          else if Ascii.eqb c "f" then
            match strip "alse" s1 with
            | Some s2 => Some (VBool false, s2)
            | None => None
            end
          else
            match parse_number (String c s1) with
            | Some (n, s2) =>
                Some (if Ascii.eqb c "-" && (n =? 0) then VNegZero else VNum n,
                      s2)
            | None => None
            end
      end
  end
with parse_elements (fuel : nat) (s : string)
    : option (list value * string) :=
  match fuel with
  | O => None
  | S fuel' =>
      match parse_value fuel' s with
      | Some (v, s1) =>
          match skip_ws s1 with
          | String c s2 =>
              if Ascii.eqb c "," then
                match parse_elements fuel' s2 with
                | Some (vs, s3) => Some (v :: vs, s3)
                | None => None
                end
              else if Ascii.eqb c "]" then Some ([v], s2)
              else None
          | "" => None
          end
      | None => None
      end
  end
with parse_members (fuel : nat) (s : string)
    : option (list (string * value) * string) :=
  match fuel with
  | O => None
  | S fuel' =>
      match skip_ws s with
      | String q s1 =>
          if Ascii.eqb q dquote then
            match parse_chars s1 with
            | Some (k, s2) =>
                match skip_ws s2 with
                | String colon s3 =>
                    if Ascii.eqb colon ":" then
                      match parse_value fuel' s3 with
                      | Some (v, s4) =>
                          match skip_ws s4 with
                          | String c s5 =>
                              if Ascii.eqb c "," then
                                match parse_members fuel' s5 with
                                | Some (ms, s6) => Some ((k, v) :: ms, s6)
                                | None => None
                                end
                              else if Ascii.eqb c "}" then Some ([(k, v)], s5)
                              else None
                          | "" => None
                          end
                      | None => None
                      end
                    else None
                | "" => None
                end
            | None => None
            end
          else None
      | "" => None
      end
  end.

(** One value between optional white space. *)
Definition parse_text (text : string) : option value :=
  match parse_value (S (String.length text)) text with
  | Some (v, rest) => if String.eqb (skip_ws rest) "" then Some v else None
  | None => None
  end.

(** [JSON.parse]: it throws [SyntaxError] on a text it cannot read. *)
Definition parse (text : string) : result value :=
  match parse_text text with
  | Some v => Ok v
  | None => Throw SyntaxError
  end.

End JSON.

(* ================================================================= *)
(** ** The platform: [path] and [fs] *)

Inductive encoding : Type := utf8 | base64.

(** The one field of [fs.Stats] the service reads (in whole
    milliseconds). *)
Record Stats : Type := { birthtimeMs : Z }.

(** The host the service runs on: [path.join], and for every path what
    [fs.readFile], [fs.stat] and [fs.writeFile] answer there. *)
Record Platform : Type := {
  path_join : list string -> string;
  fs_content : string -> error + string;
  fs_stat : string -> error + Stats;
  fs_write_error : string -> option error;
}.

Definition base64_char (n : N) : ascii :=
  if (n <? 26)%N then ascii_of_N (65 + n)
  else if (n <? 52)%N then ascii_of_N (71 + n)
  else if (n <? 62)%N then ascii_of_N (n - 4)
  else if (n =? 62)%N then "+"%char
  else "/"%char.

Fixpoint base64_encode (s : string) : string :=
  match s with
  | "" => ""
  | String a "" =>
      let x := N_of_ascii a in
      String (base64_char (x / 4))
        (String (base64_char (x mod 4 * 16)) "==")
  | String a (String b "") =>
      let x := N_of_ascii a in
      let y := N_of_ascii b in
      String (base64_char (x / 4))
        (String (base64_char (x mod 4 * 16 + y / 16))
           (String (base64_char (y mod 16 * 4)) "="))
  | String a (String b (String c s')) =>
      let x := N_of_ascii a in
      let y := N_of_ascii b in
      let z := N_of_ascii c in
      String (base64_char (x / 4))
        (String (base64_char (x mod 4 * 16 + y / 16))
           (String (base64_char (y mod 16 * 4 + z / 64))
              (String (base64_char (z mod 64)) (base64_encode s'))))
  end.

(** [fs.readFile(path, encoding, callback)]: the arguments [(err, data)]
    the callback receives. *)
Definition readFile (pf : Platform) (path : string) (enc : encoding)
    : error + string :=
  match fs_content pf path with
  | inl err => inl err
  | inr content =>
      inr (match enc with
           | utf8 => content
           | base64 => base64_encode content
           end)
  end.

(** [fs.stat(path, callback)] *)
Definition stat (pf : Platform) (path : string) : error + Stats :=
  fs_stat pf path.

(** [fs.writeFile(path, data, callback)]: the [err] the callback receives
    and the platform afterwards. *)
Definition writeFile (pf : Platform) (path data : string)
    : option error * Platform :=
  match fs_write_error pf path with
  | Some err => (Some err, pf)
  | None =>
      (None,
       {| path_join := path_join pf;
          fs_content := fun p =>
            if String.eqb p path then inr data else fs_content pf p;
          fs_stat := fs_stat pf;
          fs_write_error := fs_write_error pf |})
  end.

(** [err.code === c] *)
Definition code_is (err : error) (c : string) : bool :=
  match err with
  | SystemError code => String.eqb code c
  | _ => false
  end.

(* ================================================================= *)
(** ** Promises *)

(** What a callback does with the [resolve] and [reject] of the promise
    it belongs to. *)
Inductive settle (A : Type) : Type :=
| resolve (a : A)
| reject (e : error).
Arguments resolve {A} a.
Arguments reject {A} e.

(** [new Promise((resolve, reject) => fs.op(args, callback))].  The outer
    [result] is the executor itself, which evaluates the arguments of the
    [fs] call: what it throws rejects the promise.  The inner [result] is
    the callback, which [fs] runs later, outside the executor: what it
    throws reaches nobody and the promise never settles. *)
Definition new_Promise {A} (executor : result (result (settle A)))
    : promise A :=
  match executor with
  | Throw e => Rejected e
  | Ok (Throw _) => Pending
  | Ok (Ok (resolve a)) => Fulfilled a
  | Ok (Ok (reject e)) => Rejected e
  end.

(** [p.then(f)] for an [f] that answers a promise. *)
Definition then_ {A B} (p : promise A) (f : A -> promise B) : promise B :=
  match p with
  | Fulfilled a => f a
  | Rejected e => Rejected e
  | Pending => Pending
  end.

(** The promise of a [then] callback that returns or throws. *)
Definition returned {A} (r : result A) : promise A :=
  match r with
  | Ok a => Fulfilled a
  | Throw e => Rejected e
  end.

(** [p.catch(console.error)]: a rejection is logged and the promise is
    fulfilled with [undefined] ([None]). *)
Definition catch_console_error {A} (p : promise A) : promise (option A) :=
  match p with
  | Fulfilled a => Fulfilled (Some a)
  | Rejected _ => Fulfilled None
  | Pending => Pending
  end.

(** [Promise.all([a, b, c])] *)
Definition Promise_all {A B C} (a : promise A) (b : promise B)
    (c : promise C) : promise (A * B * C) :=
  match a, b, c with
  | Fulfilled x, Fulfilled y, Fulfilled z => Fulfilled (x, y, z)
  | Rejected e, _, _ => Rejected e
  | _, Rejected e, _ => Rejected e
  | _, _, Rejected e => Rejected e
  | _, _, _ => Pending
  end.

(** [new Promise((resolve, reject) => { p.then(a => resolve(k a)) })]: only
    a fulfilment handler is installed and [reject] is never called, so
    the new promise settles only when [p] is fulfilled and [k] returns. *)
Definition resolve_after {A B} (p : promise A) (k : A -> result B)
    : promise B :=
  match p with
  | Fulfilled a =>
      match k a with
      | Ok b => Fulfilled b
      | Throw _ => Pending
      end
  | Rejected _ => Pending
  | Pending => Pending
  end.

(* ================================================================= *)
(** ** [async/map] *)

(** What one run of the iteratee does with its callback: it never calls
    it, or it calls [callback(err, v)]. *)
Inductive called : Type :=
| NoCall
| Call (err : option error) (v : value).

(** The call of the final callback, [callback(err, results)], if any. *)
Inductive final : Type :=
| Never
| Final (err : option error) (results : list value).

Record map_state : Type := {
  results : list value;
  completed : nat;
  fired : final;
}.

(** The iteratee of item [i] calls back: [results[i] = v]; an error
    fires the final callback at once, the last success fires it with the
    whole array; the final callback fires once. *)
Definition map_step {A} (coll : list A) (iteratee : A -> called)
    (st : map_state) (i : nat) : map_state :=
  match coll !! i with
  | None => st
  | Some item =>
      match iteratee item with
      | NoCall => st
      | Call err v =>
          let results' := <[i := v]> (results st) in
          match err with
          | Some e =>
              {| results := results';
                 completed := completed st;
                 fired := match fired st with
                          | Never => Final (Some e) results'
                          | f => f
                          end |}
          | None =>
              let completed' := S (completed st) in
              {| results := results';
                 completed := completed';
                 fired := match fired st with
                          | Never =>
                              if Nat.eqb completed' (length coll)
                              then Final None results' else Never
                          | f => f
                          end |}
          end
      end
  end.

(** [asyncMap(coll, iteratee, callback)].  The iteratee is started on
    every item; [order] lists the items, by index, in the order in which
    their runs complete (the index of a run that never calls back stands
    in [order] without effect).  The results are stored by index, so the
    array keeps the order of [coll] whatever the completion order; the
    array is laid out in full from the start, where the library grows it,
    which shows only in the array that goes with an error. *)
Definition asyncMap {A} (coll : list A) (iteratee : A -> called)
    (order : list nat) : final :=
  fired
    (fold_left (map_step coll iteratee) order
       {| results := replicate (length coll) VUndefined;
          completed := 0;
          fired := match coll with
                   | [] => Final None []
                   | _ => Never
                   end |}).

(* ================================================================= *)
(** ** [src/services/read-from-disk.service.js] *)

(** Load createdAt time *)
Definition loadProjectFSStat (pf : Platform) (projectPath : string)
    : promise Stats :=
  new_Promise
    (Ok (match stat pf projectPath with
         | inl err => Ok (reject err)
         | inr data => Ok (resolve data)
         end)).

(** Load a project's package.json *)
Definition loadPackageJson (pf : Platform) (projectPath : string)
    : promise value :=
  new_Promise
    (Ok (match readFile pf (path_join pf [projectPath; "package.json"]) utf8 with
         | inl err => Ok (reject err)
         | inr data => let! json := JSON.parse data in Ok (resolve json)
         end)).

(** [path.join(projectPath, segment)] on a value: [path.join] throws
    [TypeError] on an argument that is not a string. *)
Definition join_segment (pf : Platform) (projectPath : string)
    (segment : value) : result string :=
  match segment with
  | VStr s => Ok (path_join pf [projectPath; s])
  | _ => Throw TypeError
  end.

(** Load a project's manifest.json *)
Definition loadManifestJson (pf : Platform) (projectPath : string)
    (packageJson : value) : promise value :=
  new_Promise
    (let! skpm := get packageJson "skpm" in
     let! manifest := get skpm "manifest" in
     let! manifestPath := join_segment pf projectPath manifest in
     Ok (match readFile pf manifestPath utf8 with
         | inl err => Ok (reject err)
         | inr data => let! json := JSON.parse data in Ok (resolve json)
         end)).

(** Load a project's icon.png *)
Definition loadIcon (pf : Platform) (projectPath : string) : promise string :=
  new_Promise
    (Ok (match readFile pf (path_join pf [projectPath; "assets"; "icon.png"])
                 base64 with
         | inl err => Ok (reject err)
         | inr data => Ok (resolve data)
         end)).

(** Update a project's package.json.  [JSON.stringify] answers
    [undefined] on [undefined], which the [fs.writeFile] of the Node
    versions of the project's time writes as text (later versions refuse
    data that is no string: there the promise is rejected). *)
Definition writePackageJson (pf : Platform) (projectPath : string)
    (json : value) : promise value * Platform :=
  let prettyPrintedPackageJson := default "undefined" (JSON.stringify json) in
  let '(err, pf') := writeFile pf (path_join pf [projectPath; "package.json"])
                       prettyPrintedPackageJson in
  (new_Promise
     (Ok (match err with
          | Some err => Ok (reject err)
          | None => Ok (resolve json)
          end)),
   pf').

(** Update a project's manifest.json.  The text is made first; the path
    is computed inside the executor, so what [packageJson.skpm.manifest]
    or [path.join] throws rejects the promise before anything is
    written. *)
Definition writeManifestJson (pf : Platform) (projectPath : string)
    (packageJson json : value) : promise value * Platform :=
  let prettyPrintedManifestJson := default "undefined" (JSON.stringify json) in
  match (let! skpm := get packageJson "skpm" in
         let! manifest := get skpm "manifest" in
         join_segment pf projectPath manifest) with
  | Throw e => (new_Promise (Throw e), pf)
  | Ok manifestPath =>
      let '(err, pf') := writeFile pf manifestPath prettyPrintedManifestJson in
      (new_Promise
         (Ok (match err with
              | Some err => Ok (reject err)
              | None => Ok (resolve json)
              end)),
       pf')
  end.

Definition some_or_undefined {A} (inj : A -> value) (o : option A) : value :=
  match o with
  | Some a => inj a
  | None => VUndefined
  end.

Definition loadProject (pf : Platform) (projectPath : string)
    : promise value :=
  then_ (loadPackageJson pf projectPath) (fun json =>
    then_
      (Promise_all
         (catch_console_error (loadManifestJson pf projectPath json))
         (catch_console_error (loadIcon pf projectPath))
         (catch_console_error (loadProjectFSStat pf projectPath)))
      (fun '(manifest, icon, stat) =>
         returned
           (let! json := assign json "__skpm_manifest"
                           (some_or_undefined id manifest) in
            let! json := assign json "__skpm_icon"
                           (some_or_undefined VStr icon) in
            let! json := assign json "__skpm_createdAt"
                           (some_or_undefined
                              (fun st => VNum (birthtimeMs st)) stat) in
            Ok json))).

(** The property key the computed key [[item.name]] denotes, for an
    [item] that is neither [null] nor [undefined]. *)
Definition name_key (item : value) : result string :=
  to_property_key (field item "name").

(** [list.reduce((map, item) => ({...map, [item.name]: item}), {})]: the
    fold both aggregators end with. *)
Definition by_name (items : list value) : result (gmap string value) :=
  fold_left
    (fun acc item =>
       let! map := acc in
       let! key := name_key item in
       Ok (<[key := item]> map))
    items (Ok ∅).

(** Given an array of paths, load each one as a distinct project.
    [order] is the order in which the loads complete.  The final callback
    runs inside the last [then] or [catch] handler of the iteratee; were
    it to throw, the handler's second call of the callback would throw in
    [async] and [resolve] would never be reached. *)
Definition loadProjects (pf : Platform) (projectPaths : list string)
    (order : list nat) : promise (gmap string value) :=
  match asyncMap projectPaths
          (fun projectPath =>
             match loadProject pf projectPath with
             | Fulfilled json => Call None json
             | Rejected err => Call None VNull
             | Pending => NoCall
             end)
          order with
  | Never => Pending
  | Final err results =>
      (* [results] is an array, so [!results] is false *)
      let validProjects := List.filter truthy results in
      match by_name validProjects with
      | Ok projects => Fulfilled projects
      | Throw _ => Pending
      end
  end.

Inductive DependencyLocation : Type := dependencies | devDependencies.

Definition location_name (l : DependencyLocation) : string :=
  match l with
  | dependencies => "dependencies"
  | devDependencies => "devDependencies"
  end.

Record QueuedDependency : Type := {
  name : string;
  location : DependencyLocation;
}.

(** The property [k] of [obj], if [obj] defines it. *)
Definition defined (obj : value) (k : string) : option (string * value) :=
  match field obj k with
  | VUndefined => None
  | x => Some (k, x)
  end.

(** Modelled from the spec: [pick] is imported from [src/utils], which is
    not among the sources.  The specification has it "project onto a
    fixed field subset", fields that the object lacks staying absent. *)
Definition pick (obj : value) (ks : list string) : value :=
  VObj (omap (defined obj) ks).

(** [{...v}]: the own properties of [v] ([null] and [undefined] have
    none). *)
Definition spread (v : value) : props :=
  map (fun k => (k, field v k)) (Object_keys v).

Definition dependency_fields : list string :=
  ["name"; "description"; "keywords"; "version"; "homepage"; "license";
   "repository"].

Definition dependencyPath (pf : Platform) (projectPath : string)
    (dependencyName : string) : string :=
  path_join pf [projectPath; "node_modules"; dependencyName; "package.json"].

(** This method reads the package.json for a specific dependency, in a
    specific project. *)
Definition loadProjectDependency (pf : Platform) (projectPath : string)
    (dependencyName : string) (dependencyLocation : DependencyLocation)
    : promise value :=
  new_Promise
    (Ok (match readFile pf (dependencyPath pf projectPath dependencyName)
                 utf8 with
         | inl err =>
             if code_is err "ENOENT" then Ok (resolve VNull)
             else Ok (reject err)
         | inr data =>
             let! packageJson := JSON.parse data in
             let packageJsonSubset := pick packageJson dependency_fields in
             let dependency :=
               VObj (set_prop
                       (set_prop (spread packageJsonSubset)
                          "status" (VStr "idle"))
                       "location" (VStr (location_name dependencyLocation))) in
             Ok (resolve dependency)
         end)).

(** Wrapper around [loadProjectDependency] that fetches all dependencies
    from an array; [order] is the order in which the reads complete. *)
Definition loadProjectDependencies (pf : Platform) (projectPath : string)
    (queue : list QueuedDependency) (order : list nat)
    : promise (list value) :=
  match asyncMap queue
          (fun d =>
             match loadProjectDependency pf projectPath (name d) (location d) with
             | Fulfilled dependency => Call None dependency
             | Rejected err => Call (Some err) VUndefined
             | Pending => NoCall
             end)
          order with
  | Never => Pending
  | Final (Some err) _ => Rejected err
  | Final None results => Fulfilled (List.filter truthy results)
  end.

Definition includes (l : list string) (s : string) : bool :=
  existsb (String.eqb s) l.

(** The queue [loadAllProjectDependencies] builds from the two sections
    of a descriptor. *)
Definition queued (packageJson : value)
    : result (list QueuedDependency) :=
  let! declared := get packageJson "dependencies" in
  let deps := Object_keys (or_else declared (VObj [])) in
  let! declaredDev := get packageJson "devDependencies" in
  let devDeps := Object_keys (or_else declaredDev (VObj [])) in
  Ok (map (fun name =>
             {| name := name;
                location := if includes devDeps name
                            then devDependencies else dependencies |})
        (deps ++ devDeps)).

(** Wrapper around [loadProjectDependency] that fetches all dependencies
    for a specific project. *)
Definition loadAllProjectDependencies (pf : Platform) (projectPath : string)
    (order : list nat) : promise (gmap string value) :=
  then_ (loadPackageJson pf projectPath) (fun packageJson =>
    match queued packageJson with
    | Throw e => Rejected e
    | Ok queue =>
        resolve_after (loadProjectDependencies pf projectPath queue order)
          by_name
    end).

(* ================================================================= *)
(** ** Vocabulary of the statements *)

(** The keys under which [loadProject] merges what it read. *)
Definition reserved_keys : list string :=
  ["__skpm_manifest"; "__skpm_icon"; "__skpm_createdAt"].

(** What the three soft reads of [loadProject] contribute, [undefined]
    standing for a read that failed. *)
Definition manifest_of (pf : Platform) (projectPath : string) (json : value)
    : value :=
  match loadManifestJson pf projectPath json with
  | Fulfilled manifest => manifest
  | _ => VUndefined
  end.

Definition icon_of (pf : Platform) (projectPath : string) : value :=
  match loadIcon pf projectPath with
  | Fulfilled icon => VStr icon
  | _ => VUndefined
  end.

Definition createdAt_of (pf : Platform) (projectPath : string) : value :=
  match loadProjectFSStat pf projectPath with
  | Fulfilled st => VNum (birthtimeMs st)
  | _ => VUndefined
  end.

(** The merge of [loadProject]: three assignments to the descriptor. *)
Definition merged (json manifest icon createdAt : value) : result value :=
  let! json := assign json "__skpm_manifest" manifest in
  let! json := assign json "__skpm_icon" icon in
  let! json := assign json "__skpm_createdAt" createdAt in
  Ok json.

(** The record of a project that loaded. *)
Definition loaded (pf : Platform) (projectPath : string) : option value :=
  match loadProject pf projectPath with
  | Fulfilled json => Some json
  | _ => None
  end.

(** The installed descriptor of a dependency, when it is there and holds
    JSON. *)
Definition installed (pf : Platform) (projectPath dependencyName : string)
    : option value :=
  match readFile pf (dependencyPath pf projectPath dependencyName) utf8 with
  | inr data =>
      match JSON.parse data with
      | Ok packageJson => Some packageJson
      | Throw _ => None
      end
  | inl _ => None
  end.

(** An installed descriptor that [loadAllProjectDependencies] copes with:
    it is absent, or it holds JSON whose [name] denotes a key. *)
Definition absent_or_named (pf : Platform) (projectPath dependencyName : string)
    : bool :=
  match readFile pf (dependencyPath pf projectPath dependencyName) utf8 with
  | inl err => code_is err "ENOENT"
  | inr data =>
      match JSON.parse data with
      | Ok packageJson =>
          match name_key packageJson with
          | Ok _ => true
          | Throw _ => false
          end
      | Throw _ => false
      end
  end.

(** The names a descriptor declares, in the order of the queue. *)
Definition declared (packageJson : value) : list string :=
  Object_keys (or_else (field packageJson "dependencies") (VObj []))
  ++ Object_keys (or_else (field packageJson "devDependencies") (VObj [])).

(** What one queued dependency contributes to the batch. *)
Definition resolved (pf : Platform) (projectPath : string)
    (d : QueuedDependency) : option value :=
  match loadProjectDependency pf projectPath (name d) (location d) with
  | Fulfilled VNull => None
  | Fulfilled dependency => Some dependency
  | _ => None
  end.

(** The read error with which one queued dependency fails. *)
Definition failure (pf : Platform) (projectPath : string)
    (d : QueuedDependency) : option error :=
  match loadProjectDependency pf projectPath (name d) (location d) with
  | Rejected err => Some err
  | _ => None
  end.

(** The failure of the first read, in completion order, that fails. *)
Definition first_failure (pf : Platform) (projectPath : string)
    (queue : list QueuedDependency) (order : list nat) : option error :=
  head (omap (fun i => queue !! i ≫= failure pf projectPath) order).

(** *** Disks to run the service on *)

Definition text (v : value) : string :=
  default "undefined" (JSON.stringify v).

(** A disk with the listed files; a path in [locked] answers [EACCES], a
    path that is not listed answers [ENOENT]; a directory above a listed
    file has a creation time. *)
Definition disk (files : list (string * string)) (locked : list string)
    : Platform :=
  {| path_join := String.concat "/";
     fs_content := fun p =>
       if includes locked p then inl (SystemError "EACCES")
       else match find (fun f => String.eqb (fst f) p) files with
            | Some f => inr (snd f)
            | None => inl (SystemError "ENOENT")
            end;
     fs_stat := fun p =>
       if existsb (fun f => String.prefix (p +:+ "/") (fst f)) files
       then inr {| birthtimeMs := 1540000000000 |}
       else inl (SystemError "ENOENT");
     fs_write_error := fun p =>
       if includes locked p then Some (SystemError "EACCES") else None |}.

Definition descriptor_a : value :=
  VObj [("name", VStr "a"); ("version", VStr "0.1.0");
        ("skpm", VObj [("manifest", VStr "src/manifest.json")]);
        ("dependencies", VObj [("foo", VStr "^1.0.0"); ("bar", VStr "^2.0.0")]);
        ("devDependencies", VObj [("foo", VStr "^1.0.0")])].

Definition manifest_a : value :=
  VObj [("commands", VArr [VObj [("name", VStr "run")]] [])].

Definition descriptor_foo : value :=
  VObj [("name", VStr "foo"); ("version", VStr "1.2.0");
        ("license", VStr "MIT"); ("main", VStr "index.js")].

(** Project [/a] declares [foo] in both sections and [bar], which is not
    installed; project [/b] has no descriptor. *)
Definition files_a : list (string * string) :=
  [("/a/package.json", text descriptor_a);
   ("/a/src/manifest.json", text manifest_a);
   ("/a/assets/icon.png", "icon");
   ("/a/node_modules/foo/package.json", text descriptor_foo)].

Definition tidy_disk : Platform := disk files_a [].

(** The descriptor of project [/c] is cut short. *)
Definition corrupt_disk : Platform :=
  disk (("/c/package.json", "{") :: files_a) [].

(** Projects [/a] and [/a2] carry one name, with different versions. *)
Definition descriptor_a2 : value :=
  VObj [("name", VStr "a"); ("version", VStr "0.2.0")].

Definition twin_disk : Platform :=
  disk (("/a2/package.json", text descriptor_a2) :: files_a) [].

(** The descriptor installed under [foo] calls itself [bar]. *)
Definition renamed_disk : Platform :=
  disk [("/a/package.json",
         text (VObj [("name", VStr "a");
                     ("dependencies", VObj [("foo", VStr "^1.0.0")])]));
        ("/a/node_modules/foo/package.json",
         text (VObj [("name", VStr "bar"); ("version", VStr "1.2.0")]))] [].

(** The descriptor of [/a] declares a reserved key of its own. *)
Definition clash_disk : Platform :=
  disk [("/a/package.json",
         text (VObj [("name", VStr "a"); ("__skpm_icon", VStr "mine")]))] [].

(** The installed descriptor of [foo] cannot be read. *)
Definition locked_disk : Platform :=
  disk files_a ["/a/node_modules/foo/package.json"].

(** Induction on values, through the lists of elements and properties. *)
Section value_induction.
Variable P : value -> Prop.
Hypothesis Hundefined : P VUndefined.
Hypothesis Hnull : P VNull.
Hypothesis Hbool : forall b, P (VBool b).
Hypothesis Hnum : forall n, P (VNum n).
Hypothesis Hnegzero : P VNegZero.
Hypothesis Hstr : forall s, P (VStr s).
Hypothesis Harr : forall elems named,
  Forall P elems -> Forall (fun p => P (snd p)) named -> P (VArr elems named).
Hypothesis Hobj : forall ps, Forall (fun p => P (snd p)) ps -> P (VObj ps).

Fixpoint value_ind (v : value) : P v :=
  match v with
  | VUndefined => Hundefined
  | VNull => Hnull
  | VBool b => Hbool b
  | VNum n => Hnum n
  | VNegZero => Hnegzero
  | VStr s => Hstr s
  | VArr elems named =>
      Harr elems named
        ((fix go (l : list value) : Forall P l :=
            match l with
            | [] => List.Forall_nil P
            | e :: l' => List.Forall_cons P e l' (value_ind e) (go l')
            end) elems)
        ((fix go (l : list (string * value)) : Forall (fun p => P (snd p)) l :=
            match l with
            | [] => List.Forall_nil _
            | p :: l' => List.Forall_cons _ p l' (value_ind (snd p)) (go l')
            end) named)
  | VObj ps =>
      Hobj ps
        ((fix go (l : list (string * value)) : Forall (fun p => P (snd p)) l :=
            match l with
            | [] => List.Forall_nil _
            | p :: l' => List.Forall_cons _ p l' (value_ind (snd p)) (go l')
            end) ps)
  end.
End value_induction.

(** A JSON value of the model without negative zero: no [undefined]
    anywhere, numbers that are safe integers, arrays without named
    properties, objects whose keys are distinct. *)
Fixpoint is_json (v : value) : bool :=
  match v with
  | VUndefined | VNegZero => false
  | VNull | VBool _ | VStr _ => true
  | VNum n => (- 2 ^ 53 <? n) && (n <? 2 ^ 53)
  | VArr elems named =>
      forallb is_json elems && match named with [] => true | _ => false end
  | VObj ps =>
      bool_decide (NoDup (keys ps)) && forallb (fun p => is_json (snd p)) ps
  end.

(** The text [JSON.stringify] writes for a value nested at [stepback]. *)
Definition ser (stepback : nat) (v : value) : string :=
  default "null" (JSON.serialize stepback v).

(** The text of one member of an object. *)
Definition member (indent : nat) (p : string * value) : string :=
  JSON.quote (fst p) +:+ String ":" (String " " (ser indent (snd p))).

(** What may follow a number: anything but more of a number. *)
Definition delimited (rest : string) : bool :=
  match rest with
  | "" => true
  | String c _ =>
      negb (JSON.is_digit c || Ascii.eqb c "." || Ascii.eqb c "e"
            || Ascii.eqb c "E")
  end.

(** The first character of the text of a value. *)
Definition starter (c : ascii) : bool :=
  negb (JSON.is_ws c) && negb (Ascii.eqb c "]") && negb (Ascii.eqb c "}").

Definition head_ok (text : string) : bool :=
  match text with
  | String c _ => starter c
  | "" => false
  end.

Definition item_reads_back (indent : nat) (e : value) : Prop :=
  forall fuel rest,
    (String.length (ser indent e) < fuel)%nat ->
    delimited rest = true ->
    JSON.parse_value fuel (ser indent e +:+ rest) = Some (e, rest).

Definition reads_back_text (v : value) : Prop :=
  forall stepback,
    JSON.serialize stepback v = Some (ser stepback v)
    /\ head_ok (ser stepback v) = true
    /\ item_reads_back stepback v.

Definition reads_back (v : value) : Prop :=
  is_json v = true -> reads_back_text v.

(** *** One run of [asyncMap] *)

Section async_map_vocabulary.
Context {A : Type} (coll : list A) (iteratee : A -> called).

(** What the run of item [i] does with its callback. *)
Definition outcome (i : nat) : called :=
  match coll !! i with
  | Some item => iteratee item
  | None => NoCall
  end.

Definition error_of (i : nat) : option error :=
  match outcome i with
  | Call (Some e) _ => Some e
  | _ => None
  end.

Definition succeeds (i : nat) : bool :=
  match outcome i with
  | Call None _ => true
  | _ => false
  end.

Definition passed (c : called) : value :=
  match c with
  | Call _ v => v
  | NoCall => VUndefined
  end.

(** The error of the first run, in completion order, that fails. *)
Definition first_error (order : list nat) : option error :=
  head (omap error_of order).

Definition initial : map_state :=
  {| results := replicate (length coll) VUndefined;
     completed := 0;
     fired := match coll with [] => Final None [] | _ => Never end |}.

Definition run (order : list nat) : map_state :=
  fold_left (map_step coll iteratee) order initial.

(** What holds of the state once the runs in [l] have completed. *)
Record invariant (l : list nat) (st : map_state) : Prop := {
  inv_length : length (results st) = length coll;
  inv_seen : forall i, i ∈ l -> (i < length coll)%nat ->
             results st !! i = Some (passed (outcome i));
  inv_unseen : forall i, i ∉ l -> (i < length coll)%nat ->
               results st !! i = Some VUndefined;
  inv_fired :
    match first_error l with
    | Some e => exists rs, fired st = Final (Some e) rs
    | None =>
        completed st = length (List.filter succeeds l)
        /\ fired st = if Nat.eqb (completed st) (length coll)
                      then Final None (results st) else Never
    end;
}.
End async_map_vocabulary.

(** What [loadProject] and [loadProjectDependency] answer on these
    disks. *)
Definition record_a : value :=
  Eval vm_compute in
    match loadProject tidy_disk "/a" with
    | Fulfilled record => record
    | _ => VUndefined
    end.

Definition record_a2 : value :=
  Eval vm_compute in
    match loadProject twin_disk "/a2" with
    | Fulfilled record => record
    | _ => VUndefined
    end.

Definition dependency_foo : value :=
  Eval vm_compute in
    match loadProjectDependency tidy_disk "/a" "foo" devDependencies with
    | Fulfilled dependency => dependency
    | _ => VUndefined
    end.

Definition queue_a : list QueuedDependency :=
  Eval vm_compute in
    match queued descriptor_a with
    | Ok queue => queue
    | Throw _ => []
    end.

(** *** Further vocabulary *)

(** A promise that settles, one way or the other. *)
Definition settles {A} (p : promise A) : bool :=
  match p with
  | Pending => false
  | _ => true
  end.

(** A value with properties of its own to assign to: an object or an
    array. *)
Definition is_object (v : value) : bool :=
  match v with
  | VObj _ | VArr _ _ => true
  | _ => false
  end.

(** The manifest path a descriptor names, [packageJson.skpm.manifest],
    when it names one [path.join] takes. *)
Definition manifest_path (packageJson : value) : option string :=
  match field (field packageJson "skpm") "manifest" with
  | VStr s => Some s
  | _ => None
  end.

(** What [JSON.stringify] keeps of a value: an [undefined] element of an
    array is written [null], a property whose value is [undefined] is
    left out, and so are the named properties of an array; the negative
    zero is written [0]. *)
Fixpoint kept (v : value) : value :=
  match v with
  | VNegZero => VNum 0
  | VArr elems _ =>
      VArr (map (fun e => match e with
                          | VUndefined => VNull
                          | _ => kept e
                          end) elems) []
  | VObj ps =>
      VObj (omap (fun p : string * value =>
                    let '(k, x) := p in
                    match x with
                    | VUndefined => None
                    | _ => Some (k, kept x)
                    end) ps)
  | _ => v
  end.

(** A JSON value of the model, the negative zero among the numbers. *)
Fixpoint json_value (v : value) : bool :=
  match v with
  | VUndefined => false
  | VNull | VBool _ | VStr _ | VNegZero => true
  | VNum n => (- 2 ^ 53 <? n) && (n <? 2 ^ 53)
  | VArr elems named =>
      forallb json_value elems && match named with [] => true | _ => false end
  | VObj ps =>
      bool_decide (NoDup (keys ps))
      && forallb (fun p => json_value (snd p)) ps
  end.

(** The names in the [devDependencies] section of a descriptor. *)
Definition devDeps_of (packageJson : value) : list string :=
  Object_keys (or_else (field packageJson "devDependencies") (VObj [])).

(** The queue entry [loadAllProjectDependencies] makes of a declared
    name. *)
Definition located (packageJson : value) (n : string) : QueuedDependency :=
  {| name := n;
     location := if includes (devDeps_of packageJson) n
                 then devDependencies else dependencies |}.

(** The manifest of [/a] is cut short. *)
Definition cut_manifest_disk : Platform :=
  disk (("/a/src/manifest.json", "{") :: files_a) [].

(** The descriptor of [/n] holds [null]. *)
Definition null_disk : Platform :=
  disk (("/n/package.json", "null") :: files_a) [].

(** The installed descriptor of [foo] is cut short. *)
Definition cut_dependency_disk : Platform :=
  disk (("/a/node_modules/foo/package.json", "{") :: files_a) [].

(** Project [/a] declares [foo] in both sections and [m] in
    [dependencies]; the descriptor installed under [foo] calls itself
    [x], the one installed under [m] calls itself [foo]. *)
Definition descriptor_swapped : value :=
  VObj [("name", VStr "a");
        ("dependencies", VObj [("foo", VStr "^1.0.0"); ("m", VStr "^1.0.0")]);
        ("devDependencies", VObj [("foo", VStr "^1.0.0")])].

Definition swapped_disk : Platform :=
  disk [("/a/package.json", text descriptor_swapped);
        ("/a/node_modules/foo/package.json", text (VObj [("name", VStr "x")]));
        ("/a/node_modules/m/package.json", text (VObj [("name", VStr "foo")]))]
    [].


(** A manifest with numbers, nested arrays and characters that are
    escaped. *)
Definition manifest_rich : value :=
  VObj [("name", VStr (String JSON.dquote (String JSON.backslash
                         (String JSON.newline "run"))));
        ("version", VNum 3);
        ("limits", VArr [VNum (-17); VNum 9007199254740991; VNull;
                         VBool true; VArr [] []; VObj []] []);
        ("commands", VArr [VObj [("script", VStr "./a.js");
                                 ("shortcut", VNull)]] [])].

(** A record with an [undefined] property and an [undefined] element. *)
Definition sparse_record : value :=
  VObj [("name", VStr "a"); ("__skpm_icon", VUndefined);
        ("tags", VArr [VUndefined; VNum 1] [])].

(* ================================================================= *)
(** ** Text *)

#[local] Arguments String.append !_ _ / : simpl nomatch.

Lemma append_assoc (a b c : string) : (a +:+ b) +:+ c = a +:+ (b +:+ c).
Proof. induction a as [|x a IH]; simpl; [reflexivity | f_equal; exact IH]. Qed.

Lemma append_nil_r (s : string) : s +:+ "" = s.
Proof. induction s as [|c s IH]; simpl; [reflexivity | f_equal; exact IH]. Qed.

Lemma append_length (a b : string) :
  String.length (a +:+ b) = (String.length a + String.length b)%nat.
Proof. induction a as [|x a IH]; simpl; [reflexivity | f_equal; exact IH]. Qed.

(* ================================================================= *)
(** ** Numerals are read back *)

Lemma digit_char_code (d : N) :
  (d < 10)%N -> N_of_ascii (digit_char d) = (48 + d)%N.
Proof. intros H. unfold digit_char. apply N_ascii_embedding. lia. Qed.

Lemma is_digit_digit_char (d : N) :
  (d < 10)%N -> JSON.is_digit (digit_char d) = true.
Proof.
  intros H. unfold JSON.is_digit. rewrite digit_char_code by done.
  apply andb_true_iff. split; apply N.leb_le; lia.
Qed.

Lemma digit_val_digit_char (d : N) :
  (d < 10)%N -> JSON.digit_val (digit_char d) = d.
Proof. intros H. unfold JSON.digit_val. rewrite digit_char_code by done. lia. Qed.

Lemma digit_char_zero (d : N) :
  (0 < d < 10)%N -> Ascii.eqb (digit_char d) "0" = false.
Proof.
  intros H. apply Ascii.eqb_neq. intros E.
  apply (f_equal N_of_ascii) in E. rewrite digit_char_code in E by lia.
  vm_compute (N_of_ascii "0") in E. lia.
Qed.

Lemma dec_go_append (fuel : nat) (n : N) (acc rest : string) :
  dec_go fuel n acc +:+ rest = dec_go fuel n (acc +:+ rest).
Proof.
  revert n acc. induction fuel as [|fuel IH]; intros n acc; simpl; [reflexivity|].
  destruct (n <? 10)%N; [reflexivity|]. apply IH.
Qed.

(** Reading the digits [dec_go] wrote continues the number read so far. *)
Lemma read_digits_dec_go (fuel : nat) : forall n acc,
  (n < 2 ^ N.of_nat fuel)%N ->
  exists m, forall a,
    JSON.read_digits (dec_go fuel n acc) a = JSON.read_digits acc (a * m + n)%N.
Proof.
  induction fuel as [|fuel IH]; intros n acc Hn.
  - exists 1%N. intros a. simpl in *. f_equal. lia.
  - cbn [dec_go]. destruct (N.ltb_spec n 10) as [Hlt|Hge].
    + exists 10%N. intros a. cbn [JSON.read_digits].
      rewrite N.mod_small by done.
      rewrite is_digit_digit_char, digit_val_digit_char by done.
      f_equal. lia.
    + destruct (IH (n / 10)%N (String (digit_char (n mod 10)) acc)) as [m Hm].
      { rewrite Nat2N.inj_succ, N.pow_succ_r' in Hn.
        apply N.Div0.div_lt_upper_bound. lia. }
      exists (10 * m)%N. intros a. rewrite Hm. cbn [JSON.read_digits].
      assert (Hd : (n mod 10 < 10)%N) by (apply N.mod_lt; lia).
      rewrite is_digit_digit_char, digit_val_digit_char by done.
      f_equal. pose proof (N.div_mod n 10). lia.
Qed.

(** A positive number is written without a leading zero. *)
Lemma dec_go_head (fuel : nat) : forall n acc,
  (0 < n)%N -> (n < 2 ^ N.of_nat fuel)%N ->
  exists c t, dec_go fuel n acc = String c t
              /\ JSON.is_digit c = true /\ Ascii.eqb c "0" = false.
Proof.
  induction fuel as [|fuel IH]; intros n acc Hpos Hn.
  - simpl in Hn. lia.
  - cbn [dec_go]. destruct (N.ltb_spec n 10) as [Hlt|Hge].
    + exists (digit_char (n mod 10)), acc. rewrite N.mod_small by done.
      split; [reflexivity|]. split.
      * now apply is_digit_digit_char.
      * apply digit_char_zero. lia.
    + apply IH.
      * apply N.div_str_pos. lia.
      * rewrite Nat2N.inj_succ, N.pow_succ_r' in Hn.
        apply N.Div0.div_lt_upper_bound. lia.
Qed.

Lemma dec_fuel (n : N) : (n < 2 ^ N.of_nat (S (N.to_nat (N.size n))))%N.
Proof.
  rewrite Nat2N.inj_succ, N2Nat.id, N.pow_succ_r'.
  pose proof (N.size_gt n). lia.
Qed.

Lemma read_digits_delimited (rest : string) (a : N) :
  delimited rest = true -> JSON.read_digits rest a = (a, rest).
Proof.
  destruct rest as [|c r]; [reflexivity|]. cbn [delimited JSON.read_digits].
  destruct (JSON.is_digit c); [discriminate | reflexivity].
Qed.

Lemma delimited_integer_ends (rest : string) :
  delimited rest = true -> JSON.integer_ends rest = true.
Proof.
  destruct rest as [|c r]; [reflexivity|]. cbn [delimited JSON.integer_ends].
  destruct (JSON.is_digit c); [discriminate | exact id].
Qed.

Lemma parse_int_dec (n : N) (rest : string) :
  delimited rest = true ->
  JSON.parse_int (dec n +:+ rest) = Some (n, rest).
Proof.
  intros Hrest. destruct (N.eq_dec n 0%N) as [->|Hn].
  - change (dec 0%N) with "0". cbn.
    destruct rest as [|c r]; [reflexivity|]. cbn in Hrest.
    destruct (JSON.is_digit c); [discriminate | reflexivity].
  - unfold dec. rewrite dec_go_append. cbn [String.append].
    destruct (dec_go_head _ n rest ltac:(lia) (dec_fuel n))
      as (c & t & E & Hd & Hz).
    destruct (read_digits_dec_go _ n rest (dec_fuel n)) as [m Hm].
    specialize (Hm 0%N). rewrite E in *. cbn [JSON.parse_int].
    rewrite Hz, Hd, Hm. rewrite read_digits_delimited by done.
    reflexivity.
Qed.

Lemma dec_head (n : N) :
  exists c t, dec n = String c t /\ JSON.is_digit c = true.
Proof.
  destruct (N.eq_dec n 0%N) as [->|Hn].
  - exists "0"%char, "". split; reflexivity.
  - destruct (dec_go_head _ n "" ltac:(lia) (dec_fuel n))
      as (c & t & E & Hd & _).
    exists c, t. split; assumption.
Qed.

Lemma digit_not_minus (c : ascii) :
  JSON.is_digit c = true -> Ascii.eqb c "-" = false.
Proof. intros H. apply Ascii.eqb_neq. intros ->. discriminate H. Qed.

(** The numeral of an integer is never read as the negative zero. *)
Lemma number_sign (n : Z) (c : ascii) (t : string) :
  number_to_string n = String c t -> Ascii.eqb c "-" && (n =? 0) = false.
Proof.
  unfold number_to_string. destruct (Z.ltb_spec n 0) as [Hneg|Hpos].
  - intros _. replace (n =? 0) with false; [apply andb_false_r|].
    symmetry. apply Z.eqb_neq. lia.
  - intros E. destruct (dec_head (Z.to_N n)) as (c' & t' & E' & Hd).
    rewrite E' in E. injection E as <- _.
    now rewrite (digit_not_minus c' Hd).
Qed.

Lemma parse_number_to_string (n : Z) (rest : string) :
  delimited rest = true ->
  JSON.parse_number (number_to_string n +:+ rest) = Some (n, rest).
Proof.
  intros Hrest. unfold number_to_string.
  destruct (Z.ltb_spec n 0) as [Hneg|Hpos].
  - cbn [String.append JSON.parse_number]. cbn [Ascii.eqb Bool.eqb].
    rewrite parse_int_dec, delimited_integer_ends by done.
    do 2 f_equal. lia.
  - destruct (dec_head (Z.to_N n)) as (c & t & E & Hd).
    pose proof (parse_int_dec (Z.to_N n) rest Hrest) as Hp.
    rewrite E in *. cbn [String.append] in *. cbn [JSON.parse_number].
    rewrite (digit_not_minus c Hd), Hp, delimited_integer_ends by done.
    do 2 f_equal. lia.
Qed.

Lemma number_start (c : ascii) :
  c = "-"%char \/ JSON.is_digit c = true ->
  starter c = true
  /\ Ascii.eqb c "{" = false /\ Ascii.eqb c "[" = false
  /\ Ascii.eqb c JSON.dquote = false /\ Ascii.eqb c "n" = false
  /\ Ascii.eqb c "t" = false /\ Ascii.eqb c "f" = false.
Proof.
  intros [->|H]; [by vm_compute|].
  destruct c as [[] [] [] [] [] [] [] []]; vm_compute in H;
    try discriminate H; by vm_compute.
Qed.

Lemma number_head (n : Z) :
  exists c t, number_to_string n = String c t
              /\ (c = "-"%char \/ JSON.is_digit c = true).
Proof.
  unfold number_to_string. destruct (n <? 0)%Z.
  - eauto.
  - destruct (dec_head (Z.to_N n)) as (c & t & E & Hd). eauto.
Qed.

(* ================================================================= *)
(** ** String literals are read back *)

Lemma parse_chars_escape_char (c : ascii) (tl : string) :
  JSON.parse_chars (JSON.escape_char c +:+ tl)
  = JSON.push c (JSON.parse_chars tl).
Proof. destruct c as [[] [] [] [] [] [] [] []]; reflexivity. Qed.

Lemma parse_chars_escape (s rest : string) :
  JSON.parse_chars (JSON.escape s +:+ String JSON.dquote rest) = Some (s, rest).
Proof.
  induction s as [|c s IH]; [reflexivity|].
  cbn [JSON.escape]. rewrite append_assoc, parse_chars_escape_char, IH.
  reflexivity.
Qed.

(* ================================================================= *)
(** ** White space and brackets *)

Lemma skip_ws_spaces (n : nat) (s : string) :
  JSON.skip_ws (JSON.spaces n +:+ s) = JSON.skip_ws s.
Proof. induction n as [|n IH]; [reflexivity | exact IH]. Qed.

Lemma skip_ws_indent (n : nat) (s : string) :
  JSON.skip_ws (String JSON.newline (JSON.spaces n +:+ s)) = JSON.skip_ws s.
Proof. exact (skip_ws_spaces n s). Qed.

Lemma skip_ws_starter (c : ascii) (s : string) :
  JSON.is_ws c = false -> JSON.skip_ws (String c s) = String c s.
Proof. intros H. cbn [JSON.skip_ws]. now rewrite H. Qed.

Lemma parse_value_skip (fuel : nat) (s s' : string) :
  JSON.skip_ws s = JSON.skip_ws s' ->
  JSON.parse_value fuel s = JSON.parse_value fuel s'.
Proof. intros E. destruct fuel; cbn [JSON.parse_value]; now rewrite ?E. Qed.

Lemma head_ok_skip (text rest : string) :
  head_ok text = true ->
  exists c t, text = String c t /\ starter c = true
              /\ JSON.skip_ws (text +:+ rest) = String c (t +:+ rest).
Proof.
  destruct text as [|c t]; [discriminate|]. intros H. exists c, t.
  split; [reflexivity|]. split; [exact H|].
  cbn [String.append]. apply skip_ws_starter.
  cbn [head_ok] in H. unfold starter in H.
  destruct (JSON.is_ws c); [discriminate | reflexivity].
Qed.

Lemma closes_starter (b : ascii) (text rest : string) :
  head_ok text = true -> (b = "]" \/ b = "}")%char ->
  JSON.closes b (text +:+ rest) = None.
Proof.
  intros H Hb. destruct (head_ok_skip text rest H) as (c & t & -> & Hc & E).
  unfold JSON.closes. rewrite E. unfold starter in Hc.
  destruct Hb as [-> | ->];
    destruct (JSON.is_ws c), (Ascii.eqb c "]"), (Ascii.eqb c "}");
    try discriminate; reflexivity.
Qed.

Lemma concat_cons2 (sep x y : string) (l : list string) :
  String.concat sep (x :: y :: l) = x +:+ sep +:+ String.concat sep (y :: l).
Proof. reflexivity. Qed.

Lemma wrap_append (o c : ascii) (stepback indent : nat)
    (partial : list string) (rest : string) :
  JSON.wrap o c stepback indent partial +:+ rest
  = String o (String JSON.newline
      (JSON.spaces indent +:+ String.concat (JSON.separator indent) partial
       +:+ String JSON.newline (JSON.spaces stepback +:+ String c rest))).
Proof.
  unfold JSON.wrap. cbn [String.append]. rewrite !append_assoc.
  cbn [String.append]. rewrite !append_assoc. reflexivity.
Qed.

Lemma wrap_length (o c : ascii) (stepback indent : nat)
    (partial : list string) :
  (String.length (String.concat (JSON.separator indent) partial) + 3
   <= String.length (JSON.wrap o c stepback indent partial))%nat.
Proof.
  unfold JSON.wrap. cbn [String.length]. rewrite !append_length.
  cbn [String.length]. rewrite !append_length. cbn [String.length]. lia.
Qed.

(* ================================================================= *)
(** ** Arrays and objects are read back *)

Lemma parse_elements_items (indent stepback : nat) (es : list value) :
  es <> [] ->
  Forall (item_reads_back indent) es ->
  forall fuel rest,
    (String.length (String.concat (JSON.separator indent) (map (ser indent) es))
       + 1 < fuel)%nat ->
    JSON.parse_elements fuel
      (String JSON.newline
         (JSON.spaces indent
          +:+ String.concat (JSON.separator indent) (map (ser indent) es)
          +:+ String JSON.newline (JSON.spaces stepback +:+ String "]" rest)))
    = Some (es, rest).
Proof.
  intros Hne Hall. induction Hall as [|e es He Hes IH]; [done|].
  intros fuel rest Hfuel. destruct fuel as [|fuel]; [lia|].
  cbn [JSON.parse_elements]. unfold item_reads_back in He.
  destruct es as [|e' es'].
  - cbn [map String.concat] in *.
    rewrite (parse_value_skip _ _ _ (skip_ws_indent _ _)).
    rewrite He by (done || lia).
    rewrite skip_ws_indent. reflexivity.
  - rewrite (parse_value_skip _ _ _ (skip_ws_indent _ _)).
    cbn [map] in *. rewrite concat_cons2 in *.
    rewrite !append_length in Hfuel.
    cbn [JSON.separator String.length] in Hfuel.
    rewrite !append_assoc. rewrite He by (done || lia).
    cbn [JSON.separator String.append JSON.skip_ws JSON.is_ws].
    cbn -[JSON.parse_elements String.concat JSON.spaces String.append].
    rewrite IH by (done || lia). reflexivity.
Qed.

Lemma parse_members_items (indent stepback : nat)
    (ps : list (string * value)) :
  ps <> [] ->
  Forall (fun p => item_reads_back indent (snd p)) ps ->
  forall fuel rest,
    (String.length
       (String.concat (JSON.separator indent) (map (member indent) ps))
       + 1 < fuel)%nat ->
    JSON.parse_members fuel
      (String JSON.newline
         (JSON.spaces indent
          +:+ String.concat (JSON.separator indent) (map (member indent) ps)
          +:+ String JSON.newline (JSON.spaces stepback +:+ String "}" rest)))
    = Some (ps, rest).
Proof.
  intros Hne Hall. induction Hall as [|[k v] ps He Hps IH]; [done|].
  intros fuel rest Hfuel. destruct fuel as [|fuel]; [lia|].
  cbn [JSON.parse_members]. rewrite skip_ws_indent.
  cbn [snd] in He. unfold item_reads_back in He.
  assert (Hsp : forall X,
    JSON.parse_value fuel (String " " X) = JSON.parse_value fuel X)
    by (intros X; now apply parse_value_skip).
  destruct ps as [|p' ps'].
  - cbn [map String.concat] in *. unfold member at 1. unfold member in Hfuel.
    cbn [fst snd] in *. unfold JSON.quote in *.
    rewrite !append_length in Hfuel. cbn [String.length] in Hfuel.
    rewrite !append_length in Hfuel. cbn [String.length] in Hfuel.
    cbn [String.append]. rewrite !append_assoc. cbn [String.append].
    cbn [JSON.skip_ws]. change (JSON.is_ws JSON.dquote) with false. cbv iota.
    rewrite Ascii.eqb_refl, parse_chars_escape.
    cbn [JSON.skip_ws]. change (JSON.is_ws ":") with false. cbv iota.
    rewrite Ascii.eqb_refl, Hsp, He by (done || lia).
    rewrite skip_ws_indent. reflexivity.
  - cbn [map] in *. rewrite concat_cons2 in *. unfold member at 1.
    unfold member at 1 in Hfuel. cbn [fst snd] in *. unfold JSON.quote in *.
    rewrite !append_length in Hfuel.
    cbn [JSON.separator String.length] in Hfuel.
    rewrite !append_length in Hfuel. cbn [String.length] in Hfuel.
    cbn [String.append]. rewrite !append_assoc. cbn [String.append].
    cbn [JSON.skip_ws]. change (JSON.is_ws JSON.dquote) with false. cbv iota.
    rewrite Ascii.eqb_refl, parse_chars_escape.
    cbn [JSON.skip_ws]. change (JSON.is_ws ":") with false. cbv iota.
    rewrite Ascii.eqb_refl, Hsp, He by (done || lia).
    cbn [JSON.separator String.append JSON.skip_ws].
    change (JSON.is_ws ",") with false. cbv iota.
    rewrite Ascii.eqb_refl.
    rewrite IH by (done || lia). reflexivity.
Qed.

(** *** Property lists *)

Lemma set_prop_fresh (ps : props) (k : string) (v : value) :
  k ∉ keys ps -> set_prop ps k v = ps ++ [(k, v)].
Proof.
  induction ps as [|[k' v'] ps IH]; intros Hk; [reflexivity|].
  cbn [keys map fst] in Hk. apply not_elem_of_cons in Hk as [Hne Hk].
  cbn [set_prop]. destruct (String.eqb_spec k' k) as [->|_]; [done|].
  cbn [app]. f_equal. now apply IH.
Qed.

Lemma fold_set_prop_distinct (ms acc : props) :
  NoDup (keys (acc ++ ms)) ->
  fold_left (fun acc p => set_prop acc (fst p) (snd p)) ms acc = acc ++ ms.
Proof.
  revert acc. induction ms as [|[k v] ms IH]; intros acc Hnd.
  - cbn. now rewrite app_nil_r.
  - cbn [fold_left fst snd]. rewrite set_prop_fresh.
    + rewrite IH; rewrite <- app_assoc; [reflexivity | exact Hnd].
    + unfold keys in Hnd. rewrite map_app in Hnd.
      apply NoDup_app in Hnd as (_ & Hdis & _).
      intros Hin. apply (Hdis k Hin). cbn. left.
Qed.

Lemma members_to_props_distinct (ps : props) :
  NoDup (keys ps) -> JSON.members_to_props ps = ps.
Proof.
  intros H. unfold JSON.members_to_props. now rewrite fold_set_prop_distinct.
Qed.

Lemma omap_members (indent : nat) (ps : props) :
  Forall (fun p => JSON.serialize indent (snd p) = Some (ser indent (snd p))) ps ->
  omap (fun p : string * value =>
          let '(k, x) := p in
          match JSON.serialize indent x with
          | Some s => Some (JSON.quote k +:+ String ":" (String " " s))
          | None => None
          end) ps
  = map (member indent) ps.
Proof.
  induction 1 as [|[k x] ps Hp _ IH]; [reflexivity|].
  cbn [omap list_omap map]. cbn [snd] in Hp. rewrite Hp.
  f_equal. exact IH.
Qed.

Lemma Forall_is_json_elems (P : value -> Prop) (es : list value) :
  Forall (fun e => is_json e = true -> P e) es ->
  forallb is_json es = true -> Forall P es.
Proof.
  induction 1 as [|e es He _ IH]; [constructor|].
  cbn [forallb]. intros [H1 H2]%andb_true_iff. constructor; auto.
Qed.

Lemma Forall_is_json_props (P : value -> Prop) (ps : props) :
  Forall (fun p => is_json (snd p) = true -> P (snd p)) ps ->
  forallb (fun p => is_json (snd p)) ps = true -> Forall (fun p => P (snd p)) ps.
Proof.
  induction 1 as [|e es He _ IH]; [constructor|].
  cbn [forallb]. intros [H1 H2]%andb_true_iff. constructor; auto.
Qed.

(** *** The text of every JSON value is read back as that value *)

Lemma reads_back_all (v : value) : reads_back v.
Proof.
  induction v as [| |b|n| |s|elems named IHe _|ps IHp] using value_ind;
    unfold reads_back, reads_back_text, item_reads_back; intros Hjson stepback.
  - discriminate.
  - repeat split. intros [|fuel] rest Hf _; [cbn in Hf; lia | reflexivity].
  - destruct b; (repeat split;
      intros [|fuel] rest Hf _; [cbn in Hf; lia | reflexivity]).
  - change (ser stepback (VNum n)) with (number_to_string n).
    destruct (number_head n) as (c & t & E & Hc).
    destruct (number_start c Hc) as (Hs & H1 & H2 & H3 & H4 & H5 & H6).
    split; [reflexivity|]. split; [now rewrite E|].
    intros [|fuel] rest Hf Hrest; [lia|].
    pose proof (parse_number_to_string n rest Hrest) as Hp.
    pose proof (number_sign n c t E) as Hsign.
    rewrite E in *. cbn [String.append] in *. cbn [JSON.parse_value].
    rewrite skip_ws_starter.
    + rewrite H1, H2, H3, H4, H5, H6, Hp, Hsign. reflexivity.
    + unfold starter in Hs. destruct (JSON.is_ws c); [discriminate | reflexivity].
  - discriminate.
  - change (ser stepback (VStr s)) with (JSON.quote s). repeat split.
    intros [|fuel] rest Hf _; [lia|].
    unfold JSON.quote. cbn [String.append]. rewrite append_assoc.
    cbn [String.append JSON.parse_value JSON.skip_ws].
    change (JSON.is_ws JSON.dquote) with false. cbv iota.
    change (Ascii.eqb JSON.dquote "{") with false.
    change (Ascii.eqb JSON.dquote "[") with false. cbv iota.
    rewrite Ascii.eqb_refl, parse_chars_escape. reflexivity.
  - cbn [is_json] in Hjson. apply andb_true_iff in Hjson as [Hes Hnamed].
    destruct named; [clear Hnamed | discriminate].
    pose proof (Forall_is_json_elems reads_back_text _ IHe Hes) as Hall.
    destruct elems as [|e es].
    { repeat split. intros [|fuel] rest Hf _; [cbn in Hf; lia | reflexivity]. }
    set (indent := (stepback + 2)%nat).
    assert (Hser : ser stepback (VArr (e :: es) [])
                   = JSON.wrap "[" "]" stepback indent
                       (map (ser indent) (e :: es)))
      by reflexivity.
    split; [reflexivity|].
    rewrite Hser. split; [reflexivity|].
    intros [|fuel] rest Hf Hrest; [lia|].
    pose proof (wrap_length "[" "]" stepback indent (map (ser indent) (e :: es))).
    rewrite wrap_append. cbn [JSON.parse_value JSON.skip_ws].
    change (JSON.is_ws "[") with false. cbv iota.
    change (Ascii.eqb "[" "{") with false. rewrite Ascii.eqb_refl. cbv iota.
    assert (Hhead : head_ok (ser indent e) = true).
    { apply Forall_cons in Hall as [He _]. now destruct (He indent) as (_ & ? & _). }
    assert (Hclose : forall X,
      JSON.closes "]" (String JSON.newline (JSON.spaces indent
         +:+ String.concat (JSON.separator indent) (map (ser indent) (e :: es))
         +:+ X))
      = None).
    { intros X. unfold JSON.closes. rewrite skip_ws_indent.
      destruct es; cbn [map String.concat]; rewrite ?append_assoc;
        apply (closes_starter "]" _ _ Hhead); now left. }
    rewrite Hclose.
    rewrite parse_elements_items; [reflexivity | done | | lia].
    eapply Forall_impl; [exact Hall|].
    intros x Hx. exact (proj2 (proj2 (Hx indent))).
  - cbn [is_json] in Hjson. apply andb_true_iff in Hjson as [Hnd Hps].
    apply bool_decide_eq_true in Hnd.
    pose proof (Forall_is_json_props reads_back_text _ IHp Hps) as Hall.
    destruct ps as [|p ps].
    { repeat split. intros [|fuel] rest Hf _; [cbn in Hf; lia | reflexivity]. }
    set (indent := (stepback + 2)%nat).
    assert (Hom : forall l, l = p :: ps ->
       JSON.serialize stepback (VObj l)
       = Some (JSON.wrap "{" "}" stepback indent (map (member indent) l))).
    { intros l ->. cbn [JSON.serialize]. fold indent. rewrite omap_members.
      - destruct p; reflexivity.
      - eapply Forall_impl; [exact Hall|].
        intros x Hx. exact (proj1 (Hx indent)). }
    specialize (Hom _ eq_refl).
    assert (Hser : ser stepback (VObj (p :: ps))
                   = JSON.wrap "{" "}" stepback indent
                       (map (member indent) (p :: ps)))
      by (unfold ser; now rewrite Hom).
    split; [now rewrite Hser|]. rewrite Hser. split; [reflexivity|].
    intros [|fuel] rest Hf Hrest; [lia|].
    pose proof (wrap_length "{" "}" stepback indent
                  (map (member indent) (p :: ps))).
    rewrite wrap_append. cbn [JSON.parse_value JSON.skip_ws].
    change (JSON.is_ws "{") with false. cbv iota.
    rewrite Ascii.eqb_refl. cbv iota.
    assert (Hclose : forall X,
      JSON.closes "}" (String JSON.newline (JSON.spaces indent
         +:+ String.concat (JSON.separator indent)
               (map (member indent) (p :: ps)) +:+ X))
      = None).
    { intros X. unfold JSON.closes. rewrite skip_ws_indent.
      destruct ps; cbn [map String.concat]; reflexivity. }
    rewrite Hclose.
    rewrite parse_members_items; [| done | | lia].
    + now rewrite members_to_props_distinct.
    + eapply Forall_impl; [exact Hall|].
      intros x Hx. exact (proj2 (proj2 (Hx indent))).
Qed.

(** [JSON.parse(JSON.stringify(v, null, 2))] is [v] for a JSON value. *)
Lemma parse_stringify (v : value) :
  is_json v = true ->
  exists text, JSON.stringify v = Some text /\ JSON.parse text = Ok v.
Proof.
  intros Hjson. destruct (reads_back_all v Hjson 0%nat) as (Hser & _ & Hparse).
  exists (ser 0 v). split; [exact Hser|].
  unfold JSON.parse, JSON.parse_text.
  specialize (Hparse (S (String.length (ser 0 v))) "" ltac:(lia) eq_refl).
  rewrite append_nil_r in Hparse. now rewrite Hparse.
Qed.

(* ================================================================= *)
(** ** [asyncMap]: what the final callback receives *)

Section async_map.
Context {A : Type} (coll : list A) (iteratee : A -> called).

#[local] Abbreviation out := (outcome coll iteratee).
#[local] Abbreviation err_of := (error_of coll iteratee).
#[local] Abbreviation ok := (succeeds coll iteratee).
#[local] Abbreviation first_err := (first_error coll iteratee).
#[local] Abbreviation run_of := (run coll iteratee).
#[local] Abbreviation inv := (invariant coll iteratee).

Lemma run_snoc (l : list nat) (i : nat) :
  run_of (l ++ [i]) = map_step coll iteratee (run_of l) i.
Proof. unfold run. now rewrite fold_left_app. Qed.

Lemma invariant_initial : inv [] (initial coll).
Proof.
  split.
  - cbn. apply length_replicate.
  - intros i Hi. inversion Hi.
  - intros i _ Hi. cbn. now apply lookup_replicate_2.
  - cbn. split; [reflexivity|]. destruct coll; reflexivity.
Qed.

Lemma first_error_snoc (l : list nat) (i : nat) :
  first_err (l ++ [i])
  = match first_err l with Some e => Some e | None => err_of i end.
Proof.
  unfold first_error. rewrite omap_app. cbn [omap list_omap].
  destruct (omap err_of l) as [|e l']; [|reflexivity].
  cbn. destruct (err_of i); reflexivity.
Qed.

Lemma succeeds_snoc (l : list nat) (i : nat) :
  length (List.filter ok (l ++ [i]))
  = (length (List.filter ok l) + if ok i then 1 else 0)%nat.
Proof.
  rewrite List.filter_app, length_app. cbn [List.filter].
  now destruct (ok i).
Qed.

(** One more completion keeps the inv, as long as the run_of that
    completes had not completed before. *)
Lemma invariant_step (l : list nat) (i : nat) (st : map_state) :
  i ∉ l -> (i < length coll)%nat -> (length l < length coll)%nat ->
  inv l st -> inv (l ++ [i]) (map_step coll iteratee st i).
Proof.
  intros Hfresh Hi Hl [Hlen Hseen Hunseen Hfired].
  pose proof (List.filter_length_le ok l) as Hcount.
  destruct (lookup_lt_is_Some_2 coll i Hi) as [item Hitem].
  assert (Hout : out i = iteratee item)
    by (unfold outcome; now rewrite Hitem).
  assert (Herr : err_of i = match iteratee item with
                              | Call (Some e) _ => Some e | _ => None end)
    by (unfold error_of; now rewrite Hout).
  assert (Hsucc : ok i = match iteratee item with
                               | Call None _ => true | _ => false end)
    by (unfold succeeds; now rewrite Hout).
  unfold map_step. rewrite Hitem.
  destruct (iteratee item) as [|err v] eqn:Hcall.
  - (* the run_of of item [i] never calls back *)
    split; [exact Hlen | | | ].
    + intros j [Hj| ->%list_elem_of_singleton]%elem_of_app Hjn;
        [now apply Hseen|].
      rewrite Hout. now apply Hunseen.
    + intros j Hj Hjn. apply Hunseen; [|exact Hjn].
      intros Hin. apply Hj, elem_of_app. now left.
    + rewrite first_error_snoc, Herr, succeeds_snoc, Hsucc.
      destruct (first_err l); [exact Hfired|]. now rewrite Nat.add_0_r.
  - assert (Hlen' : length (<[i := v]> (results st)) = length coll)
      by now rewrite length_insert.
    assert (Hseen' : forall j, j ∈ l ++ [i] -> (j < length coll)%nat ->
              <[i := v]> (results st) !! j = Some (passed (out j))).
    { intros j [Hj| ->%list_elem_of_singleton]%elem_of_app Hjn.
      - rewrite list_lookup_insert_ne; [now apply Hseen|].
        intros ->. contradiction.
      - rewrite Hout. apply list_lookup_insert_eq. lia. }
    assert (Hunseen' : forall j, j ∉ l ++ [i] -> (j < length coll)%nat ->
              <[i := v]> (results st) !! j = Some VUndefined).
    { intros j Hj Hjn. rewrite list_lookup_insert_ne.
      - apply Hunseen; [|exact Hjn].
        intros Hin. apply Hj, elem_of_app. now left.
      - intros ->. apply Hj, elem_of_app. right.
        apply list_elem_of_singleton. reflexivity. }
    destruct err as [e|]; (split; cbn [results completed fired];
      [exact Hlen' | exact Hseen' | exact Hunseen' | ]);
      rewrite first_error_snoc, Herr; destruct (first_err l) as [e0|].
    + destruct Hfired as [rs ->]. eauto.
    + destruct Hfired as [Hc Hf].
      assert (Hnot : Nat.eqb (completed st) (length coll) = false)
        by (apply Nat.eqb_neq; lia).
      rewrite Hnot in Hf. rewrite Hf. eauto.
    + destruct Hfired as [rs ->]. eauto.
    + destruct Hfired as [Hc Hf].
      assert (Hnot : Nat.eqb (completed st) (length coll) = false)
        by (apply Nat.eqb_neq; lia).
      rewrite Hnot in Hf.
      split; [rewrite succeeds_snoc, Hsucc; lia | now rewrite Hf].
Qed.

Lemma invariant_run (order : list nat) :
  NoDup order -> (forall i, i ∈ order -> (i < length coll)%nat) ->
  inv order (run_of order).
Proof.
  induction order as [|i l IH] using rev_ind; intros Hnd Hin.
  - apply invariant_initial.
  - rewrite run_snoc. apply NoDup_app in Hnd as (Hl & Hdis & _).
    assert (Hlen : l ++ [i] ⊆+ seq 0 (length coll)).
    { apply NoDup_submseteq.
      - apply NoDup_app.
        repeat split; [exact Hl | exact Hdis | apply NoDup_singleton].
      - intros j Hj. apply elem_of_seq. specialize (Hin j Hj). lia. }
    apply submseteq_length in Hlen.
    rewrite length_seq, length_app in Hlen. cbn in Hlen.
    apply invariant_step.
    + intros Hi. apply (Hdis i Hi). apply list_elem_of_singleton. reflexivity.
    + apply Hin, elem_of_app. right. apply list_elem_of_singleton. reflexivity.
    + lia.
    + apply IH; [exact Hl|]. intros j Hj. apply Hin, elem_of_app. now left.
Qed.

Lemma filter_length_all (p : nat -> bool) (l : list nat) :
  length (List.filter p l) = length l <-> Forall (fun i => p i = true) l.
Proof.
  induction l as [|i l IH]; cbn [List.filter].
  - split; [constructor | reflexivity].
  - pose proof (List.filter_length_le p l).
    destruct (p i) eqn:Hp; cbn [length].
    + rewrite Forall_cons. split.
      * intros H'. split; [exact Hp | apply IH; lia].
      * intros [_ H']. f_equal. now apply IH.
    + split; [lia|]. intros H'. apply Forall_cons in H' as [H' _]. congruence.
Qed.

(** Every run_of that calls back does so once: the completion order is a
    permutation of the indices of the collection. *)
Section permutation.
Variable order : list nat.
Hypothesis Horder : order ≡ₚ seq 0 (length coll).

Lemma order_NoDup : NoDup order.
Proof. rewrite Horder. apply NoDup_seq. Qed.

Lemma order_elem (i : nat) : i ∈ order <-> (i < length coll)%nat.
Proof. rewrite Horder, elem_of_seq. lia. Qed.

Lemma order_length : length order = length coll.
Proof. rewrite Horder. apply length_seq. Qed.

Lemma order_invariant : inv order (run_of order).
Proof.
  apply invariant_run; [apply order_NoDup|]. intros i. apply order_elem.
Qed.

(** The array keeps the order of the collection. *)
Lemma order_results :
  results (run_of order) = map (fun item => passed (iteratee item)) coll.
Proof.
  destruct order_invariant as [Hlen Hseen _ _].
  apply list_eq. intros i. rewrite list_lookup_fmap.
  destruct (decide (i < length coll)%nat) as [Hi|Hi].
  - rewrite Hseen by (exact Hi || now apply order_elem).
    unfold outcome.
    destruct (coll !! i) as [item|] eqn:E; [reflexivity|].
    apply lookup_ge_None in E. lia.
  - rewrite !lookup_ge_None_2 by lia. reflexivity.
Qed.

Lemma asyncMap_error (e : error) :
  first_err order = Some e ->
  exists rs, asyncMap coll iteratee order = Final (Some e) rs.
Proof.
  intros He. destruct order_invariant as [_ _ _ Hfired].
  now rewrite He in Hfired.
Qed.

Lemma asyncMap_no_error :
  first_err order = None ->
  asyncMap coll iteratee order
  = if forallb ok order
    then Final None (map (fun item => passed (iteratee item)) coll)
    else Never.
Proof.
  intros He. destruct order_invariant as [_ _ _ Hfired].
  rewrite He in Hfired. destruct Hfired as [Hc Hf].
  change (asyncMap coll iteratee order) with (fired (run_of order)).
  rewrite Hf, Hc, <- order_length, <- order_results.
  destruct (forallb ok order) eqn:Hall.
  - rewrite forallb_forall in Hall.
    replace (length (List.filter ok order)) with (length order).
    + now rewrite Nat.eqb_refl.
    + symmetry. apply filter_length_all, Forall_forall.
      intros i Hi. apply Hall, list_elem_of_In, Hi.
  - destruct (Nat.eqb_spec (length (List.filter ok order)) (length order))
      as [E|_]; [|reflexivity].
    apply filter_length_all in E. rewrite Forall_forall in E.
    assert (forallb ok order = true); [|congruence].
    apply forallb_forall. intros i Hi. apply E, list_elem_of_In, Hi.
Qed.

Lemma first_error_item (e : error) :
  first_err order = Some e ->
  exists item v, item ∈ coll /\ iteratee item = Call (Some e) v.
Proof.
  unfold first_error. intros He.
  assert (Hin : e ∈ omap err_of order).
  { destruct (omap err_of order); [discriminate|].
    injection He as ->. left. }
  apply list_elem_of_omap in Hin as (i & _ & Hi).
  unfold error_of, outcome in Hi.
  destruct (coll !! i) as [item|] eqn:E; [|discriminate].
  destruct (iteratee item) as [|[e'|] v] eqn:Hcall; try discriminate.
  injection Hi as ->. exists item, v. split; [|exact Hcall].
  eapply list_elem_of_lookup_2, E.
Qed.

Lemma first_error_none :
  first_err order = None <->
  forall item e v, item ∈ coll -> iteratee item <> Call (Some e) v.
Proof.
  split.
  - intros He item e v [i Hi]%list_elem_of_lookup_1 Hcall.
    assert (Hin : e ∈ omap err_of order).
    { apply list_elem_of_omap. exists i. split.
      - apply order_elem. eapply lookup_lt_Some, Hi.
      - unfold error_of, outcome. now rewrite Hi, Hcall. }
    unfold first_error in He.
    destruct (omap err_of order); [|discriminate].
    inversion Hin.
  - intros Hno. destruct (first_err order) as [e|] eqn:He; [|reflexivity].
    destruct (first_error_item e He) as (item & v & Hin & Hcall).
    now destruct (Hno item e v Hin).
Qed.

Lemma succeeds_all :
  forallb ok order = true <->
  forall item, item ∈ coll -> exists v, iteratee item = Call None v.
Proof.
  rewrite forallb_forall. split.
  - intros Hall item [i Hi]%list_elem_of_lookup_1.
    assert (Hs : ok i = true).
    { apply Hall, list_elem_of_In, order_elem. eapply lookup_lt_Some, Hi. }
    unfold succeeds, outcome in Hs. rewrite Hi in Hs.
    destruct (iteratee item) as [|[e|] v]; try discriminate. eauto.
  - intros Hall i Hi%list_elem_of_In%order_elem.
    destruct (lookup_lt_is_Some_2 coll i Hi) as [item Hitem].
    destruct (Hall item) as [v Hv]; [eapply list_elem_of_lookup_2, Hitem|].
    unfold succeeds, outcome. now rewrite Hitem, Hv.
Qed.
End permutation.
End async_map.

(* ================================================================= *)
(** ** Property lists and records *)

Lemma own_set_prop (ps : props) (k k' : string) (v : value) :
  own (set_prop ps k v) k' = if String.eqb k k' then v else own ps k'.
Proof.
  induction ps as [|[k0 v0] ps IH]; cbn [set_prop own].
  - destruct (String.eqb k k'); reflexivity.
  - destruct (String.eqb_spec k0 k) as [->|Hne]; cbn [own].
    + destruct (String.eqb k k'); reflexivity.
    + rewrite IH. destruct (String.eqb_spec k0 k') as [->|_]; [|reflexivity].
      destruct (String.eqb_spec k k') as [->|_]; [done | reflexivity].
Qed.

Lemma keys_set_prop (ps : props) (k k' : string) (v : value) :
  k' ∈ keys (set_prop ps k v) <-> k' = k \/ k' ∈ keys ps.
Proof.
  induction ps as [|[k0 v0] ps IH]; cbn [set_prop keys map fst].
  - rewrite list_elem_of_singleton. split; [auto | intros [?|H]; [done|inversion H]].
  - destruct (String.eqb_spec k0 k) as [->|Hne]; cbn [keys map fst].
    + rewrite !elem_of_cons. tauto.
    + rewrite !elem_of_cons. unfold keys in IH. rewrite IH. tauto.
Qed.

Lemma NoDup_set_prop (ps : props) (k : string) (v : value) :
  NoDup (keys ps) -> NoDup (keys (set_prop ps k v)).
Proof.
  induction ps as [|[k0 v0] ps IH]; cbn [set_prop keys map fst]; intros Hnd.
  - apply NoDup_singleton.
  - apply NoDup_cons in Hnd as [Hk0 Hnd].
    destruct (String.eqb_spec k0 k) as [->|Hne]; cbn [keys map fst].
    + apply NoDup_cons. split; assumption.
    + apply NoDup_cons. split; [|now apply IH].
      intros [->|Hin]%keys_set_prop; [done | contradiction].
Qed.

Lemma own_absent (ps : props) (k : string) :
  k ∉ keys ps -> own ps k = VUndefined.
Proof.
  induction ps as [|[k0 v0] ps IH]; [reflexivity|].
  cbn [keys map fst own]. intros [Hne Hk]%not_elem_of_cons.
  destruct (String.eqb_spec k0 k) as [->|_]; [done | now apply IH].
Qed.

(** Spreading an object whose keys are distinct copies it. *)
Lemma spread_object (ps : props) :
  NoDup (keys ps) -> spread (VObj ps) = ps.
Proof.
  unfold spread. cbn [Object_keys field].
  induction ps as [|[k v] ps IH]; [reflexivity|].
  cbn [keys map fst]. intros [Hk Hnd]%NoDup_cons.
  cbn [own]. rewrite String.eqb_refl. f_equal.
  rewrite <- (IH Hnd) at 2. unfold keys. rewrite !map_map.
  apply map_ext_in. intros [k' v'] Hin. cbn [fst own].
  destruct (String.eqb_spec k k') as [->|_]; [|reflexivity].
  destruct Hk. apply list_elem_of_In. unfold keys.
  apply in_map_iff. exists (k', v'). split; [reflexivity | exact Hin].
Qed.

Section picked.
Variable obj : value.

Lemma defined_Some (k : string) (p : string * value) :
  defined obj k = Some p <-> p = (k, field obj k) /\ field obj k <> VUndefined.
Proof.
  unfold defined. destruct (field obj k); split;
    try (intros [= <-]; split; [reflexivity | discriminate]);
    try (intros [-> _]; reflexivity).
  - discriminate.
  - intros [_ H]. done.
Qed.

Lemma keys_picked (ks : list string) (k : string) :
  k ∈ keys (omap (defined obj) ks) <-> k ∈ ks /\ field obj k <> VUndefined.
Proof.
  unfold keys. rewrite list_elem_of_fmap. split.
  - intros ([k' v] & -> & (k0 & Hk0 & [[= -> ->] Hd]%defined_Some)%list_elem_of_omap).
    split; assumption.
  - intros [Hk Hd]. exists (k, field obj k). split; [reflexivity|].
    apply list_elem_of_omap. exists k. split; [exact Hk|].
    apply defined_Some. split; [reflexivity | exact Hd].
Qed.

Lemma NoDup_picked (ks : list string) :
  NoDup ks -> NoDup (keys (omap (defined obj) ks)).
Proof.
  induction ks as [|k ks IH]; intros Hnd; [constructor|].
  apply NoDup_cons in Hnd as [Hk Hnd]. cbn [omap list_omap].
  destruct (defined obj k) as [[k' v]|] eqn:E; [|now apply IH].
  apply defined_Some in E as [[= -> ->] _].
  cbn [keys map fst]. apply NoDup_cons. split; [|now apply IH].
  intros [Hin _]%keys_picked. contradiction.
Qed.

Lemma own_picked (ks : list string) (k : string) :
  k ∈ ks -> own (omap (defined obj) ks) k = field obj k.
Proof.
  induction ks as [|k0 ks IH]; intros Hk; [inversion Hk|].
  cbn [omap list_omap].
  destruct (defined obj k0) as [[k' v]|] eqn:E.
  - apply defined_Some in E as [[= -> ->] _]. cbn [own].
    destruct (String.eqb_spec k0 k) as [->|Hne]; [reflexivity|].
    apply elem_of_cons in Hk as [->|Hk]; [done | now apply IH].
  - apply elem_of_cons in Hk as [->|Hk]; [|now apply IH].
    destruct (decide (k0 ∈ ks)) as [Hin|Hout]; [now apply IH|].
    rewrite own_absent.
    + unfold defined in E.
      destruct (field obj k0); (discriminate || reflexivity).
    + intros [Hin _]%keys_picked. contradiction.
Qed.
End picked.

(* ================================================================= *)
(** ** [loadProjectDependency] *)

(** What [loadProjectDependency] settles with, by what the read of the
    installed descriptor answers. *)
Lemma loadProjectDependency_unfold (pf : Platform) (projectPath : string)
    (dependencyName : string) (dependencyLocation : DependencyLocation) :
  loadProjectDependency pf projectPath dependencyName dependencyLocation
  = match readFile pf (dependencyPath pf projectPath dependencyName) utf8 with
    | inl err =>
        if code_is err "ENOENT" then Fulfilled VNull else Rejected err
    | inr data =>
        match JSON.parse data with
        | Ok packageJson =>
            Fulfilled
              (VObj (set_prop
                       (set_prop (spread (pick packageJson dependency_fields))
                          "status" (VStr "idle"))
                       "location" (VStr (location_name dependencyLocation))))
        | Throw _ => Pending
        end
    end.
Proof.
  unfold loadProjectDependency, new_Promise.
  destruct (readFile pf _ utf8) as [err|data].
  - destruct (code_is err "ENOENT"); reflexivity.
  - destruct (JSON.parse data); reflexivity.
Qed.

(** C2.  [loadProjectDependency] resolves to [null] exactly when the read
    of [node_modules/<name>/package.json] fails with [ENOENT]; with any
    other read error it rejects with that error. *)
Theorem loadProjectDependency_null_iff_ENOENT (pf : Platform)
    (projectPath dependencyName : string)
    (dependencyLocation : DependencyLocation) :
  (loadProjectDependency pf projectPath dependencyName dependencyLocation
   = Fulfilled VNull
   <-> fs_content pf
         (path_join pf
            [projectPath; "node_modules"; dependencyName; "package.json"])
       = inl (SystemError "ENOENT"))
  /\ (forall err,
        fs_content pf
          (path_join pf
             [projectPath; "node_modules"; dependencyName; "package.json"])
        = inl err ->
        err <> SystemError "ENOENT" ->
        loadProjectDependency pf projectPath dependencyName dependencyLocation
        = Rejected err).
Proof.
  rewrite loadProjectDependency_unfold. unfold readFile, dependencyPath.
  destruct (fs_content pf _) as [err|data]; split.
  - destruct err as [code| |]; cbn [code_is]; try (split; discriminate).
    destruct (String.eqb_spec code "ENOENT") as [->|Hne];
      split; try reflexivity; try discriminate.
    intros [= ->]. contradiction.
  - intros err' [= <-] Hne.
    destruct err as [code| |]; cbn [code_is]; try reflexivity.
    destruct (String.eqb_spec code "ENOENT") as [->|_];
      [contradiction | reflexivity].
  - destruct (JSON.parse data); split; discriminate.
  - intros err [=].
Qed.

(** The record of an installed descriptor that holds JSON. *)
Lemma dependency_record (pf : Platform) (projectPath dependencyName : string)
    (dependencyLocation : DependencyLocation)
    (data : string) (packageJson : value) :
  readFile pf (dependencyPath pf projectPath dependencyName) utf8 = inr data ->
  JSON.parse data = Ok packageJson ->
  exists record,
    loadProjectDependency pf projectPath dependencyName dependencyLocation
    = Fulfilled (VObj record)
    /\ NoDup (keys record)
    /\ (forall k, k ∈ keys record <->
          (k ∈ dependency_fields /\ field packageJson k <> VUndefined)
          \/ k = "status" \/ k = "location")
    /\ (forall k, k ∈ dependency_fields -> own record k = field packageJson k)
    /\ own record "status" = VStr "idle"
    /\ own record "location" = VStr (location_name dependencyLocation).
Proof.
  intros Hread Hparse. rewrite loadProjectDependency_unfold, Hread, Hparse.
  eexists. split; [reflexivity|].
  assert (Hfields : NoDup dependency_fields)
    by (apply (bool_decide_unpack _); vm_compute; exact I).
  unfold pick.
  rewrite spread_object by now apply NoDup_picked.
  split; [| split; [| split; [| split]]].
  - now apply NoDup_set_prop, NoDup_set_prop, NoDup_picked.
  - intros k. rewrite !keys_set_prop, keys_picked. tauto.
  - intros k Hk. rewrite !own_set_prop, own_picked by exact Hk.
    destruct (String.eqb_spec "location" k) as [<-|_].
    { exfalso. revert Hk. apply (bool_decide_eq_false_1 _). by vm_compute. }
    destruct (String.eqb_spec "status" k) as [<-|_]; [|reflexivity].
    exfalso. revert Hk. apply (bool_decide_eq_false_1 _). by vm_compute.
  - rewrite !own_set_prop. reflexivity.
  - rewrite own_set_prop. reflexivity.
Qed.

(** The record of an installed descriptor that holds JSON, written
    out. *)
Lemma dependency_record_explicit (pf : Platform)
    (projectPath dependencyName : string)
    (dependencyLocation : DependencyLocation)
    (data : string) (packageJson : value) :
  readFile pf (dependencyPath pf projectPath dependencyName) utf8 = inr data ->
  JSON.parse data = Ok packageJson ->
  loadProjectDependency pf projectPath dependencyName dependencyLocation
  = Fulfilled
      (VObj (omap (defined packageJson) dependency_fields
             ++ [("status", VStr "idle");
                 ("location", VStr (location_name dependencyLocation))])).
Proof.
  intros Hread Hparse. rewrite loadProjectDependency_unfold, Hread, Hparse.
  assert (Hfields : NoDup dependency_fields)
    by (apply (bool_decide_unpack _); vm_compute; exact I).
  unfold pick. rewrite spread_object by now apply NoDup_picked.
  assert (Hfresh : forall k, k ∉ dependency_fields ->
            k ∉ keys (omap (defined packageJson) dependency_fields)).
  { intros k Hk Hin. apply keys_picked in Hin as [Hin _]. contradiction. }
  rewrite (set_prop_fresh _ "status").
  2:{ apply Hfresh. apply (bool_decide_unpack _). vm_compute. exact I. }
  rewrite (set_prop_fresh _ "location").
  2:{ unfold keys. rewrite map_app. intros [Hin|Hin]%elem_of_app.
      - revert Hin. apply Hfresh. apply (bool_decide_unpack _).
        vm_compute. exact I.
      - revert Hin. apply (bool_decide_eq_false_1 _). by vm_compute. }
  now rewrite <- app_assoc.
Qed.

(** C7.  The record of an installed descriptor that is readable and
    parseable: the seven fields [name], [description], [keywords],
    [version], [homepage], [license], [repository] as far as the
    descriptor defines them, in that order, then [status] fixed to
    [idle] and [location] as supplied, and nothing else. *)
Theorem loadProjectDependency_record (pf : Platform)
    (projectPath dependencyName : string)
    (dependencyLocation : DependencyLocation)
    (data : string) (packageJson : value) :
  fs_content pf
    (path_join pf [projectPath; "node_modules"; dependencyName; "package.json"])
  = inr data ->
  JSON.parse data = Ok packageJson ->
  exists record,
    loadProjectDependency pf projectPath dependencyName dependencyLocation
    = Fulfilled (VObj record)
    /\ record
       = omap (fun k => match field packageJson k with
                        | VUndefined => None
                        | x => Some (k, x)
                        end)
           ["name"; "description"; "keywords"; "version"; "homepage";
            "license"; "repository"]
         ++ [("status", VStr "idle");
             ("location", VStr match dependencyLocation with
                               | dependencies => "dependencies"
                               | devDependencies => "devDependencies"
                               end)]
    /\ NoDup (keys record)
    /\ (forall k, k ∈ keys record <->
          (k ∈ ["name"; "description"; "keywords"; "version"; "homepage";
                "license"; "repository"]
           /\ field packageJson k <> VUndefined)
          \/ k = "status" \/ k = "location")
    /\ (forall k,
          k ∈ ["name"; "description"; "keywords"; "version"; "homepage";
               "license"; "repository"] ->
          own record k = field packageJson k)
    /\ own record "status" = VStr "idle"
    /\ own record "location"
       = VStr match dependencyLocation with
              | dependencies => "dependencies"
              | devDependencies => "devDependencies"
              end.
Proof.
  intros Hcontent Hparse.
  assert (Hread : readFile pf (dependencyPath pf projectPath dependencyName)
                    utf8 = inr data).
  { unfold readFile, dependencyPath. now rewrite Hcontent. }
  destruct (dependency_record pf projectPath dependencyName dependencyLocation
              data packageJson Hread Hparse)
    as (record & Hload & Hnd & Hkeys & Hown & Hstatus & Hloc).
  exists record. split; [exact Hload|].
  split; [|repeat split; assumption || apply Hkeys].
  pose proof (dependency_record_explicit pf projectPath dependencyName
                dependencyLocation data packageJson Hread Hparse) as Hexp.
  rewrite Hload in Hexp. injection Hexp as ->. reflexivity.
Qed.

(* ================================================================= *)
(** ** [loadProject] *)

Lemma loadIcon_settles (pf : Platform) (projectPath : string) :
  catch_console_error (loadIcon pf projectPath)
  = Fulfilled (match loadIcon pf projectPath with
               | Fulfilled icon => Some icon
               | _ => None
               end).
Proof.
  unfold loadIcon, new_Promise. destruct (readFile pf _ base64); reflexivity.
Qed.

Lemma loadProjectFSStat_settles (pf : Platform) (projectPath : string) :
  catch_console_error (loadProjectFSStat pf projectPath)
  = Fulfilled (match loadProjectFSStat pf projectPath with
               | Fulfilled st => Some st
               | _ => None
               end).
Proof.
  unfold loadProjectFSStat, new_Promise. destruct (stat pf _); reflexivity.
Qed.

(** [loadProject] by cases: the descriptor decides whether the project
    loads; of the three other reads only a manifest that never settles
    is felt. *)
Lemma loadProject_unfold (pf : Platform) (projectPath : string) :
  loadProject pf projectPath
  = match loadPackageJson pf projectPath with
    | Fulfilled json =>
        match loadManifestJson pf projectPath json with
        | Pending => Pending
        | _ =>
            returned (merged json (manifest_of pf projectPath json)
                        (icon_of pf projectPath) (createdAt_of pf projectPath))
        end
    | Rejected e => Rejected e
    | Pending => Pending
    end.
Proof.
  unfold loadProject, then_.
  destruct (loadPackageJson pf projectPath) as [json| |]; [|reflexivity..].
  rewrite loadIcon_settles, loadProjectFSStat_settles.
  unfold manifest_of, icon_of, createdAt_of, merged.
  destruct (loadManifestJson pf projectPath json) as [manifest| |];
    cbn [catch_console_error Promise_all]; [| |reflexivity];
    destruct (loadIcon pf projectPath), (loadProjectFSStat pf projectPath);
    reflexivity.
Qed.

Lemma index_of_numeral (k : string) (len i : nat) :
  index_of k len = Some i -> k = dec (N.of_nat i).
Proof.
  unfold index_of. intros H. apply find_some in H as [_ H].
  symmetry. now apply String.eqb_eq.
Qed.

(** A key that starts with an underscore is no array index. *)
Lemma index_of_underscore (k : string) (len : nat) :
  index_of (String "_" k) len = None.
Proof.
  destruct (index_of (String "_" k) len) as [i|] eqn:E; [|reflexivity].
  apply index_of_numeral in E.
  destruct (dec_head (N.of_nat i)) as (c & t & Hdec & Hc).
  rewrite Hdec in E. injection E as <- _. discriminate Hc.
Qed.

(** An assignment leaves every other property as it was. *)
Lemma assign_frame (v v' : value) (k k' : string) (x : value) :
  assign v k x = Ok v' -> k' <> k -> field v' k' = field v k'.
Proof.
  intros Hassign Hne.
  assert (Hb : String.eqb k k' = false) by (apply String.eqb_neq; congruence).
  destruct v; try discriminate; injection Hassign as <-; cbn [field].
  - destruct (String.eqb k' "length"); [reflexivity|].
    destruct (index_of k' (length elems)); [reflexivity|].
    now rewrite own_set_prop, Hb.
  - now rewrite own_set_prop, Hb.
Qed.

Lemma assign_reserved (v v' : value) (k : string) (x : value) :
  assign v (String "_" k) x = Ok v' -> field v' (String "_" k) = x.
Proof.
  intros Hassign.
  destruct v; try discriminate; injection Hassign as <-; cbn [field].
  - change (String.eqb (String "_" k) "length") with false. cbv iota.
    rewrite index_of_underscore, own_set_prop, String.eqb_refl. reflexivity.
  - now rewrite own_set_prop, String.eqb_refl.
Qed.

Lemma merged_fields (json manifest icon createdAt record : value) :
  merged json manifest icon createdAt = Ok record ->
  (forall k, k ∉ reserved_keys -> field record k = field json k)
  /\ field record "__skpm_manifest" = manifest
  /\ field record "__skpm_icon" = icon
  /\ field record "__skpm_createdAt" = createdAt.
Proof.
  unfold merged, result_bind.
  destruct (assign json "__skpm_manifest" manifest) as [j1|] eqn:H1;
    [|discriminate].
  destruct (assign j1 "__skpm_icon" icon) as [j2|] eqn:H2; [|discriminate].
  destruct (assign j2 "__skpm_createdAt" createdAt) as [j3|] eqn:H3;
    [|discriminate].
  intros [= <-]. split; [| split; [| split]].
  - intros k Hk. unfold reserved_keys in Hk.
    rewrite !not_elem_of_cons in Hk. destruct Hk as (K1 & K2 & K3 & _).
    rewrite (assign_frame _ _ _ _ _ H3 K3), (assign_frame _ _ _ _ _ H2 K2).
    exact (assign_frame _ _ _ _ _ H1 K1).
  - rewrite (assign_frame _ _ _ _ _ H3), (assign_frame _ _ _ _ _ H2) by done.
    exact (assign_reserved _ _ _ _ H1).
  - rewrite (assign_frame _ _ _ _ _ H3) by done.
    exact (assign_reserved _ _ _ _ H2).
  - exact (assign_reserved _ _ _ _ H3).
Qed.

(** A merge goes through exactly on an object or an array. *)
Lemma merged_ok (json manifest icon createdAt : value) :
  (exists ps, json = VObj ps) \/ (exists elems named, json = VArr elems named) ->
  exists record, merged json manifest icon createdAt = Ok record.
Proof. intros [[ps ->]|(elems & named & ->)]; eexists; reflexivity. Qed.

Lemma merged_truthy (json manifest icon createdAt record : value) :
  merged json manifest icon createdAt = Ok record -> truthy record = true.
Proof.
  unfold merged, result_bind. destruct json; try discriminate;
    cbn [assign]; intros [= <-]; reflexivity.
Qed.

Lemma loadProject_fulfilled (pf : Platform) (projectPath : string)
    (record : value) :
  loadProject pf projectPath = Fulfilled record ->
  exists json,
    loadPackageJson pf projectPath = Fulfilled json
    /\ merged json (manifest_of pf projectPath json) (icon_of pf projectPath)
         (createdAt_of pf projectPath) = Ok record.
Proof.
  rewrite loadProject_unfold.
  destruct (loadPackageJson pf projectPath) as [json| |]; try discriminate.
  intros H. exists json. split; [reflexivity|].
  destruct (loadManifestJson pf projectPath json); try discriminate;
    destruct (merged json _ _ _); cbn [returned] in H; congruence.
Qed.

(** C8.  The record [loadProject] returns agrees with the descriptor on
    every key but the three reserved ones, which hold what was merged. *)
Theorem loadProject_frame (pf : Platform) (projectPath : string)
    (record : value) :
  loadProject pf projectPath = Fulfilled record ->
  exists json,
    loadPackageJson pf projectPath = Fulfilled json
    /\ (forall k, k ∉ reserved_keys -> field record k = field json k)
    /\ field record "__skpm_manifest" = manifest_of pf projectPath json
    /\ field record "__skpm_icon" = icon_of pf projectPath
    /\ field record "__skpm_createdAt" = createdAt_of pf projectPath.
Proof.
  intros (json & Hjson & Hmerged)%loadProject_fulfilled.
  exists json. split; [exact Hjson|]. exact (merged_fields _ _ _ _ _ Hmerged).
Qed.

Lemma loadProject_truthy (pf : Platform) (projectPath : string)
    (record : value) :
  loadProject pf projectPath = Fulfilled record -> truthy record = true.
Proof.
  intros (json & _ & Hmerged)%loadProject_fulfilled.
  exact (merged_truthy _ _ _ _ _ Hmerged).
Qed.

(* ================================================================= *)
(** ** The fold into a mapping keyed by name *)

Lemma by_name_snoc (items : list value) (x : value) :
  by_name (items ++ [x])
  = (let! map := by_name items in
     let! key := name_key x in
     Ok (<[key := x]> map)).
Proof. unfold by_name. now rewrite fold_left_app. Qed.

Lemma by_name_prefix (items rest : list value) (m : gmap string value) :
  by_name (items ++ rest) = Ok m -> exists m', by_name items = Ok m'.
Proof.
  revert m. induction rest as [|x rest IH] using rev_ind; intros m.
  - rewrite app_nil_r. eauto.
  - rewrite app_assoc, by_name_snoc.
    destruct (by_name (items ++ rest)) as [m'|]; [|discriminate].
    intros _. now apply (IH m').
Qed.

(** The fold goes through when every name denotes a key. *)
Lemma by_name_ok (items : list value) :
  (forall x, x ∈ items -> exists k, name_key x = Ok k) ->
  exists m, by_name items = Ok m.
Proof.
  induction items as [|x items IH] using rev_ind; intros Hkeys.
  - exists ∅. reflexivity.
  - destruct IH as [m Hm].
    { intros y Hy. apply Hkeys, elem_of_app. now left. }
    destruct (Hkeys x) as [k Hk].
    { apply elem_of_app. right. apply list_elem_of_singleton. reflexivity. }
    exists (<[k := x]> m). rewrite by_name_snoc, Hm. cbn. now rewrite Hk.
Qed.

Lemma by_name_throw (items : list value) (x : value) (e : error) :
  x ∈ items -> name_key x = Throw e -> exists e', by_name items = Throw e'.
Proof.
  induction items as [|y items IH] using rev_ind; intros Hx Hk.
  - inversion Hx.
  - rewrite by_name_snoc.
    destruct (by_name items) as [m|e'] eqn:Hm; [|cbn; eauto].
    apply elem_of_app in Hx as [Hx| ->%list_elem_of_singleton].
    + destruct (IH Hx Hk) as [e' He']. discriminate.
    + cbn. rewrite Hk. cbn. eauto.
Qed.

(** The keys of the mapping are the names of the items. *)
Lemma by_name_dom (items : list value) (m : gmap string value) :
  by_name items = Ok m ->
  forall k, k ∈ dom m <-> exists x, x ∈ items /\ name_key x = Ok k.
Proof.
  revert m. induction items as [|x items IH] using rev_ind; intros m.
  - intros [= <-] k. rewrite dom_empty_L. split; [set_solver|].
    intros (x & Hx & _). inversion Hx.
  - rewrite by_name_snoc.
    destruct (by_name items) as [m'|]; [|discriminate]. cbn.
    destruct (name_key x) as [kx|] eqn:Hkx; [|discriminate]. cbn.
    intros [= <-] k. rewrite dom_insert_L, elem_of_union, elem_of_singleton.
    rewrite (IH m' eq_refl). split.
    + intros [->|(y & Hy & Hk)].
      * exists x. split; [|exact Hkx].
        apply elem_of_app. right. apply list_elem_of_singleton. reflexivity.
      * exists y. split; [|exact Hk]. apply elem_of_app. now left.
    + intros (y & [Hy| ->%list_elem_of_singleton]%elem_of_app & Hk).
      * right. eauto.
      * left. congruence.
Qed.

(** Every entry of the mapping is an item, under its name. *)
Lemma by_name_lookup (items : list value) (m : gmap string value)
    (k : string) (x : value) :
  by_name items = Ok m -> m !! k = Some x -> x ∈ items /\ name_key x = Ok k.
Proof.
  revert m. induction items as [|y items IH] using rev_ind; intros m.
  - intros [= <-]. rewrite lookup_empty. discriminate.
  - rewrite by_name_snoc.
    destruct (by_name items) as [m'|]; [|discriminate]. cbn.
    destruct (name_key y) as [ky|] eqn:Hky; [|discriminate]. cbn.
    intros [= <-]. destruct (decide (ky = k)) as [->|Hne].
    + rewrite lookup_insert_eq. intros [= <-]. split; [|exact Hky].
      apply elem_of_app. right. apply list_elem_of_singleton. reflexivity.
    + rewrite lookup_insert_ne by exact Hne. intros Hm.
      destruct (IH m' eq_refl Hm) as [Hin Hk]. split; [|exact Hk].
      apply elem_of_app. now left.
Qed.

(** Of the items that carry one name, the last one of the list is the
    entry. *)
Lemma by_name_last (before after : list value) (x : value)
    (m : gmap string value) (k : string) :
  by_name (before ++ x :: after) = Ok m ->
  name_key x = Ok k ->
  (forall y, y ∈ after -> name_key y <> Ok k) ->
  m !! k = Some x.
Proof.
  revert m. induction after as [|y after IH] using rev_ind; intros m.
  - change (before ++ [x]) with (before ++ [x]). rewrite by_name_snoc.
    destruct (by_name before) as [m'|]; [|discriminate]. cbn.
    intros Hm Hk _. rewrite Hk in Hm. cbn in Hm. injection Hm as <-.
    apply lookup_insert_eq.
  - rewrite app_comm_cons, app_assoc, by_name_snoc.
    destruct (by_name (before ++ x :: after)) as [m'|]; [|discriminate]. cbn.
    destruct (name_key y) as [ky|] eqn:Hky; [|discriminate]. cbn.
    intros [= <-] Hk Hafter. rewrite lookup_insert_ne.
    + apply (IH m' eq_refl Hk). intros z Hz. apply Hafter, elem_of_app. now left.
    + intros ->. apply (Hafter y); [|exact Hky].
      apply elem_of_app. right. apply list_elem_of_singleton. reflexivity.
Qed.

(** The entry under the name of an item is that item or a later one. *)
Lemma by_name_suffix (before after : list value) (x : value)
    (m : gmap string value) (k : string) :
  by_name (before ++ x :: after) = Ok m ->
  name_key x = Ok k ->
  exists y, m !! k = Some y /\ y ∈ x :: after.
Proof.
  revert m. induction after as [|y after IH] using rev_ind; intros m.
  - rewrite by_name_snoc.
    destruct (by_name before) as [m'|]; [|discriminate]. cbn.
    intros Hm Hk. rewrite Hk in Hm. cbn in Hm. injection Hm as <-.
    exists x. split; [apply lookup_insert_eq | left].
  - rewrite app_comm_cons, app_assoc, by_name_snoc.
    destruct (by_name (before ++ x :: after)) as [m'|]; [|discriminate]. cbn.
    destruct (name_key y) as [ky|] eqn:Hky; [|discriminate]. cbn.
    intros [= <-] Hk. destruct (decide (ky = k)) as [->|Hne].
    + exists y. split; [apply lookup_insert_eq|].
      rewrite app_comm_cons. apply elem_of_app. right.
      apply list_elem_of_singleton. reflexivity.
    + destruct (IH m' eq_refl Hk) as (z & Hz & Hin).
      exists z. split; [now rewrite lookup_insert_ne|].
      rewrite app_comm_cons. apply elem_of_app. now left.
Qed.

(* ================================================================= *)
(** ** [loadProjects] *)

(** The valid projects are the records of the paths that loaded, in the
    order of the paths. *)
Lemma validProjects_loaded (pf : Platform) (projectPaths : list string) :
  List.filter truthy
    (map (fun projectPath =>
            passed match loadProject pf projectPath with
                   | Fulfilled json => Call None json
                   | Rejected _ => Call None VNull
                   | Pending => NoCall
                   end) projectPaths)
  = omap (loaded pf) projectPaths.
Proof.
  induction projectPaths as [|p ps IH]; [reflexivity|].
  cbn [map List.filter omap list_omap]. unfold loaded at 1.
  destruct (loadProject pf p) as [json| |] eqn:E; cbn [passed truthy].
  - rewrite (loadProject_truthy _ _ _ E). f_equal. exact IH.
  - exact IH.
  - exact IH.
Qed.

Section loadProjects_facts.
Variables (pf : Platform) (projectPaths : list string) (order : list nat).
Hypothesis Horder : order ≡ₚ seq 0 (length projectPaths).

#[local] Abbreviation load_one :=
  (fun projectPath : string =>
     match loadProject pf projectPath with
     | Fulfilled json => Call None json
     | Rejected _ => Call None VNull
     | Pending => NoCall
     end).

(** When every load settles, [loadProjects] answers the fold of the
    records that loaded; a name that denotes no key blocks it. *)
Lemma loadProjects_settled :
  (forall p, p ∈ projectPaths -> loadProject pf p <> Pending) ->
  loadProjects pf projectPaths order
  = match by_name (omap (loaded pf) projectPaths) with
    | Ok projects => Fulfilled projects
    | Throw _ => Pending
    end.
Proof.
  intros Hsettle. unfold loadProjects.
  rewrite (asyncMap_no_error _ _ order Horder).
  - replace (forallb _ order) with true.
    + now rewrite validProjects_loaded.
    + symmetry. apply (succeeds_all _ load_one order Horder).
      intros p Hp. specialize (Hsettle p Hp).
      destruct (loadProject pf p); [eauto | eauto | done].
  - apply (first_error_none _ load_one order Horder).
    intros p e v _. destruct (loadProject pf p); discriminate.
Qed.

(** One load that never settles and [loadProjects] never settles. *)
Lemma loadProjects_pending (p : string) :
  p ∈ projectPaths -> loadProject pf p = Pending ->
  loadProjects pf projectPaths order = Pending.
Proof.
  intros Hp Hpending. unfold loadProjects.
  rewrite (asyncMap_no_error _ _ order Horder).
  - replace (forallb _ order) with false; [reflexivity|].
    symmetry. apply not_true_is_false.
    intros Hall.
    pose proof (proj1 (succeeds_all _ load_one order Horder) Hall p Hp)
      as [v Hv].
    now rewrite Hpending in Hv.
  - apply (first_error_none _ load_one order Horder).
    intros p' e v _. destruct (loadProject pf p'); discriminate.
Qed.

(** A descriptor that is read and does not parse blocks the whole
    answer (for a text of the model, one without fraction or exponent
    literals, [JSON.parse] of the model throws where the engine's does). *)
Lemma corrupt_descriptor_blocks (p data : string) (e : error) :
  p ∈ projectPaths ->
  readFile pf (path_join pf [p; "package.json"]) utf8 = inr data ->
  JSON.parse data = Throw e ->
  loadProjects pf projectPaths order = Pending.
Proof.
  intros Hp Hread Hparse. apply (loadProjects_pending p Hp).
  rewrite loadProject_unfold. unfold loadPackageJson, new_Promise.
  now rewrite Hread, Hparse.
Qed.

(** The keys of the mapping: the names of the projects that loaded. *)
Lemma loadProjects_keys :
  (forall p, p ∈ projectPaths -> loadProject pf p <> Pending) ->
  (forall p record, p ∈ projectPaths -> loadProject pf p = Fulfilled record ->
                    exists k, name_key record = Ok k) ->
  exists projects,
    loadProjects pf projectPaths order = Fulfilled projects
    /\ forall k, k ∈ dom projects <->
         exists p record, p ∈ projectPaths
                          /\ loadProject pf p = Fulfilled record
                          /\ name_key record = Ok k.
Proof.
  intros Hsettle Hnames. rewrite (loadProjects_settled Hsettle).
  destruct (by_name_ok (omap (loaded pf) projectPaths)) as [m Hm].
  { intros x (p & Hp & Hx)%list_elem_of_omap. apply (Hnames p x Hp).
    unfold loaded in Hx. destruct (loadProject pf p); congruence. }
  rewrite Hm. exists m. split; [reflexivity|]. intros k.
  rewrite (by_name_dom _ _ Hm). split.
  - intros (x & (p & Hp & Hx)%list_elem_of_omap & Hk).
    exists p, x. split; [exact Hp|]. split; [|exact Hk].
    unfold loaded in Hx. destruct (loadProject pf p); congruence.
  - intros (p & record & Hp & Hload & Hk). exists record. split; [|exact Hk].
    apply list_elem_of_omap. exists p. split; [exact Hp|].
    unfold loaded. now rewrite Hload.
Qed.

(** C9.  Of the paths that load with one name, the last one of the array
    is the one in the mapping, whatever the completion order. *)
Theorem loadProjects_last_path_wins :
  (forall p, p ∈ projectPaths -> loadProject pf p <> Pending) ->
  (forall p record, p ∈ projectPaths -> loadProject pf p = Fulfilled record ->
                    exists k, name_key record = Ok k) ->
  exists projects,
    loadProjects pf projectPaths order = Fulfilled projects
    /\ forall before p after record k,
         projectPaths = before ++ p :: after ->
         loadProject pf p = Fulfilled record ->
         name_key record = Ok k ->
         (forall p' record', p' ∈ after ->
            loadProject pf p' = Fulfilled record' -> name_key record' <> Ok k) ->
         projects !! k = Some record.
Proof.
  intros Hsettle Hnames.
  destruct (loadProjects_keys Hsettle Hnames) as (projects & Hload & _).
  exists projects. split; [exact Hload|].
  rewrite (loadProjects_settled Hsettle) in Hload.
  destruct (by_name (omap (loaded pf) projectPaths)) as [m|] eqn:Hm;
    [|discriminate].
  injection Hload as ->.
  intros before p after record k -> Hp Hk Hafter.
  rewrite omap_app in Hm. cbn [omap list_omap] in Hm.
  unfold loaded at 2 in Hm. rewrite Hp in Hm.
  apply (by_name_last _ _ _ _ _ Hm Hk).
  intros y (p' & Hp' & Hy)%list_elem_of_omap.
  apply (Hafter p' y Hp'). unfold loaded in Hy.
  destruct (loadProject pf p'); congruence.
Qed.
End loadProjects_facts.

(* ================================================================= *)
(** ** [loadProjectDependencies] *)

Lemma installed_Some (pf : Platform) (projectPath dependencyName : string)
    (packageJson : value) :
  installed pf projectPath dependencyName = Some packageJson <->
  exists data,
    readFile pf (dependencyPath pf projectPath dependencyName) utf8 = inr data
    /\ JSON.parse data = Ok packageJson.
Proof.
  unfold installed. destruct (readFile pf _ utf8) as [err|data].
  - split; [discriminate | intros (? & [=] & _)].
  - split.
    + destruct (JSON.parse data) as [v|e] eqn:E; [|discriminate].
      intros [= <-]. exists data. split; [reflexivity | exact E].
    + intros (data' & [= <-] & Hparse). now rewrite Hparse.
Qed.

(** A dependency that resolves is installed; its record carries the name
    of the installed descriptor and the location it was queued with. *)
Lemma resolved_Some (pf : Platform) (projectPath : string)
    (d : QueuedDependency) (x : value) :
  resolved pf projectPath d = Some x ->
  exists packageJson,
    installed pf projectPath (name d) = Some packageJson
    /\ name_key x = name_key packageJson
    /\ field x "location" = VStr (location_name (location d)).
Proof.
  unfold resolved, installed. rewrite loadProjectDependency_unfold.
  destruct (readFile pf _ utf8) as [err|data] eqn:Hread.
  - destruct (code_is err "ENOENT"); discriminate.
  - destruct (JSON.parse data) as [packageJson|] eqn:Hparse; [|discriminate].
    destruct (dependency_record pf projectPath (name d) (location d) data
                packageJson Hread Hparse)
      as (record & Hload & _ & _ & Hown & _ & Hloc).
    rewrite loadProjectDependency_unfold, Hread, Hparse in Hload.
    injection Hload as Hrecord. rewrite Hrecord. intros [= <-].
    exists packageJson. split; [reflexivity|]. split; [|exact Hloc].
    unfold name_key. cbn [field]. rewrite Hown; [reflexivity|].
    apply (bool_decide_unpack _). vm_compute. exact I.
Qed.

Lemma installed_resolved (pf : Platform) (projectPath : string)
    (d : QueuedDependency) (packageJson : value) :
  installed pf projectPath (name d) = Some packageJson ->
  exists x, resolved pf projectPath d = Some x
            /\ loadProjectDependency pf projectPath (name d) (location d)
               = Fulfilled x.
Proof.
  intros (data & Hread & Hparse)%installed_Some.
  destruct (dependency_record pf projectPath (name d) (location d) data
              packageJson Hread Hparse) as (record & Hload & _).
  exists (VObj record). unfold resolved. now rewrite Hload.
Qed.

(** What is left of the results once the falsy ones are dropped. *)
Lemma filtered_resolved (pf : Platform) (projectPath : string)
    (queue : list QueuedDependency) :
  List.filter truthy
    (map (fun d =>
            passed
              match loadProjectDependency pf projectPath (name d) (location d) with
              | Fulfilled dependency => Call None dependency
              | Rejected err => Call (Some err) VUndefined
              | Pending => NoCall
              end) queue)
  = omap (resolved pf projectPath) queue.
Proof.
  induction queue as [|d queue IH]; [reflexivity|].
  cbn [map List.filter omap list_omap]. unfold resolved at 1.
  rewrite loadProjectDependency_unfold.
  destruct (readFile pf _ utf8) as [err|data].
  - destruct (code_is err "ENOENT"); exact IH.
  - destruct (JSON.parse data); cbn [passed truthy]; [f_equal|]; exact IH.
Qed.

Section loadProjectDependencies_facts.
Variables (pf : Platform) (projectPath : string).
Variables (queue : list QueuedDependency) (order : list nat).
Hypothesis Horder : order ≡ₚ seq 0 (length queue).

#[local] Abbreviation read_one :=
  (fun d : QueuedDependency =>
     match loadProjectDependency pf projectPath (name d) (location d) with
     | Fulfilled dependency => Call None dependency
     | Rejected err => Call (Some err) VUndefined
     | Pending => NoCall
     end).

Lemma first_failure_first_error :
  first_failure pf projectPath queue order = first_error queue read_one order.
Proof.
  unfold first_failure, first_error. f_equal. apply list_omap_ext.
  apply Forall2_same_length_lookup. split; [reflexivity|].
  intros i x y Hx Hy. assert (x = y) as <- by congruence.
  unfold error_of, outcome, failure.
  destruct (queue !! x) as [d|]; [|reflexivity].
  cbn [mbind option_bind]. unfold failure.
  destruct (loadProjectDependency pf projectPath (name d) (location d));
    reflexivity.
Qed.

(** The first read to fail rejects the whole batch. *)
Lemma loadProjectDependencies_rejected (e : error) :
  first_failure pf projectPath queue order = Some e ->
  loadProjectDependencies pf projectPath queue order = Rejected e.
Proof.
  rewrite first_failure_first_error. intros He.
  destruct (asyncMap_error queue read_one order Horder e He) as [rs Hrs].
  unfold loadProjectDependencies. now rewrite Hrs.
Qed.

Lemma first_failure_none :
  first_failure pf projectPath queue order = None <->
  forall d, d ∈ queue -> failure pf projectPath d = None.
Proof.
  rewrite first_failure_first_error.
  rewrite (first_error_none queue read_one order Horder). split.
  - intros Hno d Hd. unfold failure.
    destruct (loadProjectDependency pf projectPath (name d) (location d))
      as [v|e|] eqn:E; try reflexivity.
    destruct (Hno d e VUndefined Hd). now rewrite E.
  - intros Hno d e v Hd Hcall. specialize (Hno d Hd). unfold failure in Hno.
    destruct (loadProjectDependency pf projectPath (name d) (location d));
      discriminate.
Qed.

(** When no read fails, the batch settles if and only if every read
    does. *)
Lemma loadProjectDependencies_no_failure :
  first_failure pf projectPath queue order = None ->
  loadProjectDependencies pf projectPath queue order
  = if forallb (succeeds queue read_one) order
    then Fulfilled (omap (resolved pf projectPath) queue)
    else Pending.
Proof.
  rewrite first_failure_first_error. intros He.
  unfold loadProjectDependencies.
  rewrite (asyncMap_no_error queue read_one order Horder He).
  destruct (forallb _ order); [|reflexivity].
  now rewrite filtered_resolved.
Qed.

Lemma loadProjectDependencies_fulfilled :
  (forall d, d ∈ queue ->
     exists v, loadProjectDependency pf projectPath (name d) (location d)
               = Fulfilled v) ->
  loadProjectDependencies pf projectPath queue order
  = Fulfilled (omap (resolved pf projectPath) queue).
Proof.
  intros Hall. rewrite loadProjectDependencies_no_failure.
  - replace (forallb _ order) with true; [reflexivity|].
    symmetry. apply (succeeds_all queue read_one order Horder).
    intros d Hd. destruct (Hall d Hd) as [v ->]. eauto.
  - apply first_failure_none. intros d Hd. unfold failure.
    now destruct (Hall d Hd) as [v ->].
Qed.

(** A batch that is fulfilled holds what the queue resolved to. *)
Lemma loadProjectDependencies_inv (l : list value) :
  loadProjectDependencies pf projectPath queue order = Fulfilled l ->
  l = omap (resolved pf projectPath) queue.
Proof.
  destruct (first_failure pf projectPath queue order) as [e|] eqn:He.
  - rewrite (loadProjectDependencies_rejected e He). discriminate.
  - rewrite (loadProjectDependencies_no_failure He).
    destruct (forallb _ order); [congruence | discriminate].
Qed.

End loadProjectDependencies_facts.

(* ================================================================= *)
(** ** [loadAllProjectDependencies] *)

Lemma includes_elem (l : list string) (s : string) :
  includes l s = true <-> s ∈ l.
Proof.
  unfold includes. rewrite existsb_exists. split.
  - intros (x & Hx & ->%String.eqb_eq). now apply list_elem_of_In.
  - intros Hs. exists s. split; [now apply list_elem_of_In|].
    apply String.eqb_refl.
Qed.

(** The queue lists the declared names: the [dependencies] section, then
    the [devDependencies] section, a name of the latter being queued as
    [devDependencies] wherever it stands. *)
Lemma queued_unfold (packageJson : value) (queue : list QueuedDependency) :
  queued packageJson = Ok queue ->
  queue
  = map (fun n =>
           {| name := n;
              location :=
                if includes
                     (Object_keys
                        (or_else (field packageJson "devDependencies") (VObj [])))
                     n
                then devDependencies else dependencies |})
      (declared packageJson).
Proof.
  unfold queued, declared, get.
  destruct packageJson; try discriminate; intros [= <-]; reflexivity.
Qed.

Lemma queued_names (packageJson : value) (queue : list QueuedDependency) :
  queued packageJson = Ok queue -> map name queue = declared packageJson.
Proof.
  intros ->%queued_unfold. rewrite map_map. cbn [name]. apply map_id.
Qed.

Lemma loadAllProjectDependencies_unfold (pf : Platform) (projectPath : string)
    (order : list nat) (packageJson : value) (queue : list QueuedDependency) :
  loadPackageJson pf projectPath = Fulfilled packageJson ->
  queued packageJson = Ok queue ->
  loadAllProjectDependencies pf projectPath order
  = resolve_after (loadProjectDependencies pf projectPath queue order) by_name.
Proof.
  intros Hjson Hqueue. unfold loadAllProjectDependencies.
  rewrite Hjson. cbn [then_]. now rewrite Hqueue.
Qed.

(** C10.  When the batch is rejected, the promise of
    [loadAllProjectDependencies] never settles. *)
Theorem rejected_batch_never_settles (pf : Platform) (projectPath : string)
    (order : list nat) (packageJson : value) (queue : list QueuedDependency)
    (e : error) :
  loadPackageJson pf projectPath = Fulfilled packageJson ->
  queued packageJson = Ok queue ->
  loadProjectDependencies pf projectPath queue order = Rejected e ->
  loadAllProjectDependencies pf projectPath order = Pending.
Proof.
  intros Hjson Hqueue Hbatch.
  rewrite (loadAllProjectDependencies_unfold _ _ _ _ _ Hjson Hqueue), Hbatch.
  reflexivity.
Qed.

Lemma absent_or_named_fulfilled (pf : Platform) (projectPath : string)
    (d : QueuedDependency) :
  absent_or_named pf projectPath (name d) = true ->
  (exists v, loadProjectDependency pf projectPath (name d) (location d)
             = Fulfilled v)
  /\ (forall x, resolved pf projectPath d = Some x ->
                exists k, name_key x = Ok k).
Proof.
  unfold absent_or_named. intros Hok. split.
  - rewrite loadProjectDependency_unfold.
    destruct (readFile pf _ utf8) as [err|data].
    + rewrite Hok. eauto.
    + destruct (JSON.parse data); [eauto | discriminate].
  - intros x (packageJson & Hinst & Hkey & _)%resolved_Some.
    apply installed_Some in Hinst as (data & Hread & Hparse).
    rewrite Hread, Hparse in Hok. rewrite Hkey.
    destruct (name_key packageJson); [eauto | discriminate].
Qed.

(** C3.  The keys of the mapping are the names the installed descriptors
    of the declared dependencies carry; they are the declared names
    themselves when every installed descriptor carries the name it is
    declared under.  A dependency that is not installed gives no key and
    no error. *)
Theorem loadAllProjectDependencies_keys (pf : Platform) (projectPath : string)
    (order : list nat) (packageJson : value) (queue : list QueuedDependency) :
  loadPackageJson pf projectPath = Fulfilled packageJson ->
  queued packageJson = Ok queue ->
  order ≡ₚ seq 0 (length queue) ->
  (forall n, n ∈ declared packageJson ->
             absent_or_named pf projectPath n = true) ->
  exists dependenciesByName,
    loadAllProjectDependencies pf projectPath order
    = Fulfilled dependenciesByName
    /\ (forall k, k ∈ dom dependenciesByName <->
          exists n installedJson,
            n ∈ declared packageJson
            /\ installed pf projectPath n = Some installedJson
            /\ name_key installedJson = Ok k)
    /\ ((forall n installedJson,
           n ∈ declared packageJson ->
           installed pf projectPath n = Some installedJson ->
           field installedJson "name" = VStr n) ->
        forall n, n ∈ dom dependenciesByName <->
                  n ∈ declared packageJson
                  /\ is_Some (installed pf projectPath n)).
Proof.
  intros Hjson Hqueue Horder Hok.
  pose proof (queued_names _ _ Hqueue) as Hnames.
  assert (Hin : forall d, d ∈ queue -> name d ∈ declared packageJson).
  { intros d Hd. rewrite <- Hnames. apply list_elem_of_fmap. eauto. }
  assert (Hqueued : forall n, n ∈ declared packageJson ->
                              exists d, d ∈ queue /\ name d = n).
  { intros n Hn. rewrite <- Hnames in Hn.
    apply list_elem_of_fmap in Hn as (d & -> & Hd). eauto. }
  rewrite (loadAllProjectDependencies_unfold _ _ _ _ _ Hjson Hqueue).
  rewrite (loadProjectDependencies_fulfilled pf projectPath queue order Horder).
  2:{ intros d Hd. apply absent_or_named_fulfilled, Hok, Hin, Hd. }
  destruct (by_name_ok (omap (resolved pf projectPath) queue)) as [m Hm].
  { intros x (d & Hd & Hx)%list_elem_of_omap.
    exact (proj2 (absent_or_named_fulfilled pf projectPath d (Hok _ (Hin d Hd)))
             x Hx). }
  cbn [resolve_after]. rewrite Hm. exists m. split; [reflexivity|].
  assert (Hdom : forall k, k ∈ dom m <->
            exists n installedJson,
              n ∈ declared packageJson
              /\ installed pf projectPath n = Some installedJson
              /\ name_key installedJson = Ok k).
  { intros k. rewrite (by_name_dom _ _ Hm). split.
    - intros (x & (d & Hd & Hx)%list_elem_of_omap & Hk).
      apply resolved_Some in Hx as (installedJson & Hinst & Hkey & _).
      exists (name d), installedJson.
      split; [exact (Hin d Hd)|]. split; [exact Hinst | congruence].
    - intros (n & installedJson & Hn & Hinst & Hk).
      destruct (Hqueued n Hn) as (d & Hd & <-).
      destruct (installed_resolved pf projectPath d installedJson Hinst)
        as (x & Hx & _).
      exists x. split; [apply list_elem_of_omap; eauto|].
      apply resolved_Some in Hx as (installedJson' & Hinst' & Hkey & _).
      congruence. }
  split; [exact Hdom|].
  intros Hsame n. rewrite Hdom. split.
  - intros (n' & installedJson & Hn' & Hinst & Hk).
    pose proof (Hsame n' installedJson Hn' Hinst) as Hfield.
    unfold name_key in Hk. rewrite Hfield in Hk. injection Hk as <-.
    split; [exact Hn' | eauto].
  - intros [Hn [installedJson Hinst]]. exists n, installedJson.
    split; [exact Hn|]. split; [exact Hinst|].
    unfold name_key. now rewrite (Hsame n installedJson Hn Hinst).
Qed.

Lemma name_key_named (installedJson : value) (n : string) :
  field installedJson "name" = VStr n -> name_key installedJson = Ok n.
Proof. unfold name_key. now intros ->. Qed.

(** The record of a name of the [devDependencies] section, and every
    record that may take its place in the mapping, is located there. *)
Lemma devDependencies_entry (pf : Platform) (projectPath : string)
    (order : list nat) (packageJson : value) (queue : list QueuedDependency)
    (dependenciesByName : gmap string value)
    (n : string) (installedJson : value) (k : string) :
  loadPackageJson pf projectPath = Fulfilled packageJson ->
  queued packageJson = Ok queue ->
  order ≡ₚ seq 0 (length queue) ->
  loadAllProjectDependencies pf projectPath order
  = Fulfilled dependenciesByName ->
  n ∈ Object_keys (or_else (field packageJson "devDependencies") (VObj [])) ->
  installed pf projectPath n = Some installedJson ->
  name_key installedJson = Ok k ->
  exists dependency,
    dependenciesByName !! k = Some dependency
    /\ field dependency "location" = VStr "devDependencies".
Proof.
  intros Hjson Hqueue Horder Hload Hdev Hinst Hk.
  rewrite (loadAllProjectDependencies_unfold _ _ _ _ _ Hjson Hqueue) in Hload.
  destruct (loadProjectDependencies pf projectPath queue order) as [l| |] eqn:Hl;
    try discriminate.
  apply (loadProjectDependencies_inv pf projectPath queue order Horder) in Hl.
  cbn [resolve_after] in Hload.
  destruct (by_name l) as [m|] eqn:Hm; [|discriminate].
  injection Hload as ->. subst l.
  apply queued_unfold in Hqueue. unfold declared in Hqueue.
  set (devDeps := Object_keys
                    (or_else (field packageJson "devDependencies") (VObj [])))
    in *.
  set (mk := fun n => {| name := n;
                         location := if includes devDeps n
                                     then devDependencies else dependencies |})
    in *.
  assert (Hlocated : forall n' x, n' ∈ devDeps ->
            resolved pf projectPath (mk n') = Some x ->
            field x "location" = VStr "devDependencies").
  { intros n' x Hn' (_ & _ & _ & Hloc)%resolved_Some.
    rewrite Hloc. unfold mk. cbn [location].
    now rewrite (proj2 (includes_elem devDeps n') Hn'). }
  destruct (list_elem_of_split _ _ Hdev) as (d1 & d2 & Hsplit).
  assert (Hq : queue = map mk (Object_keys
                 (or_else (field packageJson "dependencies") (VObj [])) ++ d1)
               ++ mk n :: map mk d2).
  { rewrite Hqueue, Hsplit, app_assoc, map_app. reflexivity. }
  destruct (installed_resolved pf projectPath (mk n) installedJson Hinst)
    as (x & Hx & _).
  rewrite Hq, omap_app in Hm. cbn [omap list_omap] in Hm. rewrite Hx in Hm.
  assert (Hkx : name_key x = Ok k).
  { apply resolved_Some in Hx as (installedJson' & Hinst' & Hkey & _).
    cbn [name mk] in Hinst'. congruence. }
  destruct (by_name_suffix _ _ _ _ _ Hm Hkx) as (y & Hy & Hin).
  exists y. split; [exact Hy|].
  apply elem_of_cons in Hin as [->|Hin].
  - exact (Hlocated n x Hdev Hx).
  - apply list_elem_of_omap in Hin as (d & Hd & Hres).
    apply list_elem_of_fmap in Hd as (n' & -> & Hn').
    apply (Hlocated n' y); [|exact Hres].
    rewrite Hsplit. apply elem_of_app. right. now right.
Qed.

(** C5.  A name declared in both sections whose installed descriptor is
    readable: the entry under the name the installed descriptor carries
    is located in [devDependencies]; it is the entry of the declared
    name when the installed descriptor carries that name. *)
Theorem both_sections_devDependencies (pf : Platform) (projectPath : string)
    (order : list nat) (packageJson : value) (queue : list QueuedDependency)
    (dependenciesByName : gmap string value)
    (n : string) (installedJson : value) (k : string) :
  loadPackageJson pf projectPath = Fulfilled packageJson ->
  queued packageJson = Ok queue ->
  order ≡ₚ seq 0 (length queue) ->
  loadAllProjectDependencies pf projectPath order
  = Fulfilled dependenciesByName ->
  n ∈ Object_keys (or_else (field packageJson "dependencies") (VObj [])) ->
  n ∈ Object_keys (or_else (field packageJson "devDependencies") (VObj [])) ->
  installed pf projectPath n = Some installedJson ->
  name_key installedJson = Ok k ->
  (exists dependency,
     dependenciesByName !! k = Some dependency
     /\ field dependency "location" = VStr "devDependencies")
  /\ (field installedJson "name" = VStr n ->
      exists dependency,
        dependenciesByName !! n = Some dependency
        /\ field dependency "location" = VStr "devDependencies").
Proof.
  intros Hjson Hqueue Horder Hload _ Hdev Hinst Hk.
  pose proof (devDependencies_entry pf projectPath order packageJson queue
                dependenciesByName n installedJson k Hjson Hqueue Horder
                Hload Hdev Hinst Hk) as Hentry.
  split; [exact Hentry|].
  intros Hname. rewrite (name_key_named _ _ Hname) in Hk.
  injection Hk as <-. exact Hentry.
Qed.

(** A read that fails with an error other than [ENOENT] leaves the
    promise of [loadAllProjectDependencies] unsettled. *)
Lemma failed_read_never_settles (pf : Platform) (projectPath : string)
    (order : list nat) (packageJson : value) (queue : list QueuedDependency)
    (d : QueuedDependency) (e : error) :
  loadPackageJson pf projectPath = Fulfilled packageJson ->
  queued packageJson = Ok queue ->
  order ≡ₚ seq 0 (length queue) ->
  d ∈ queue -> failure pf projectPath d = Some e ->
  loadAllProjectDependencies pf projectPath order = Pending.
Proof.
  intros Hjson Hqueue Horder Hd Hfail.
  rewrite (loadAllProjectDependencies_unfold _ _ _ _ _ Hjson Hqueue).
  destruct (first_failure pf projectPath queue order) as [e'|] eqn:He.
  - now rewrite (loadProjectDependencies_rejected _ _ _ _ Horder e' He).
  - rewrite (first_failure_none _ _ _ _ Horder) in He.
    rewrite (He d Hd) in Hfail. discriminate.
Qed.

(* ================================================================= *)
(** ** The service on the sample disks *)

(** C1.  A descriptor that is there but does not parse: [JSON.parse]
    throws inside the callback of [fs.readFile], the promise of
    [loadPackageJson] never settles, and [loadProjects] never answers,
    in either completion order, instead of leaving project [/c] out. *)
Theorem loadProjects_corrupt_descriptor :
  readFile corrupt_disk "/c/package.json" utf8 = inr "{"
  /\ JSON.parse "{" = Throw SyntaxError
  /\ loadPackageJson corrupt_disk "/c" = Pending
  /\ loadProjects corrupt_disk ["/a"; "/c"] [0; 1]%nat = Pending
  /\ loadProjects corrupt_disk ["/a"; "/c"] [1; 0]%nat = Pending.
Proof. repeat split; vm_compute; reflexivity. Qed.

(** Without the corrupt descriptor the same disk answers: project [/a]
    is in the mapping, project [/b], which has no descriptor, is left
    out without an error. *)
Lemma loadProjects_missing_descriptor :
  loadProjects corrupt_disk ["/a"; "/b"] [1; 0]%nat
  = Fulfilled {["a" := record_a]}.
Proof. vm_compute. reflexivity. Qed.

Lemma loadProjectDependency_null_iff_ENOENT_witness :
  loadProjectDependency tidy_disk "/a" "bar" dependencies = Fulfilled VNull
  /\ loadProjectDependency locked_disk "/a" "foo" devDependencies
     = Rejected (SystemError "EACCES").
Proof.
  split.
  - apply (proj2 (proj1 (loadProjectDependency_null_iff_ENOENT tidy_disk
                           "/a" "bar" dependencies))).
    vm_compute. reflexivity.
  - apply (proj2 (loadProjectDependency_null_iff_ENOENT locked_disk
                    "/a" "foo" devDependencies)).
    + vm_compute. reflexivity.
    + discriminate.
Defined.

(** C3, as stated.  [foo] is declared and its installed descriptor is
    there and readable, yet [foo] is no key of the mapping: the key is
    [bar], the name the installed descriptor carries. *)
Lemma installed_name_decides_key :
  exists dependenciesByName,
    loadPackageJson renamed_disk "/a"
    = Fulfilled (VObj [("name", VStr "a");
                       ("dependencies", VObj [("foo", VStr "^1.0.0")])])
    /\ declared (VObj [("name", VStr "a");
                       ("dependencies", VObj [("foo", VStr "^1.0.0")])])
       = ["foo"]
    /\ installed renamed_disk "/a" "foo"
       = Some (VObj [("name", VStr "bar"); ("version", VStr "1.2.0")])
    /\ loadAllProjectDependencies renamed_disk "/a" [0]%nat
       = Fulfilled dependenciesByName
    /\ ("foo" ∉ dom dependenciesByName)
    /\ ("bar" ∈ dom dependenciesByName).
Proof.
  exists {["bar" := VObj [("name", VStr "bar"); ("version", VStr "1.2.0");
                          ("status", VStr "idle");
                          ("location", VStr "dependencies")]]}.
  do 4 (split; [vm_compute; reflexivity|]).
  rewrite dom_singleton_L, !elem_of_singleton. split; [discriminate | reflexivity].
Qed.

Lemma loadAllProjectDependencies_keys_witness :
  exists dependenciesByName,
    loadAllProjectDependencies tidy_disk "/a" [2; 0; 1]%nat
    = Fulfilled dependenciesByName
    /\ (forall k, k ∈ dom dependenciesByName <->
          exists n installedJson,
            n ∈ declared descriptor_a
            /\ installed tidy_disk "/a" n = Some installedJson
            /\ name_key installedJson = Ok k)
    /\ ((forall n installedJson,
           n ∈ declared descriptor_a ->
           installed tidy_disk "/a" n = Some installedJson ->
           field installedJson "name" = VStr n) ->
        forall n, n ∈ dom dependenciesByName <->
                  n ∈ declared descriptor_a
                  /\ is_Some (installed tidy_disk "/a" n)).
Proof.
  apply (loadAllProjectDependencies_keys tidy_disk "/a" [2; 0; 1]%nat
           descriptor_a queue_a).
  - vm_compute. reflexivity.
  - reflexivity.
  - apply (bool_decide_unpack _). vm_compute. exact I.
  - intros n Hn. change (declared descriptor_a) with ["foo"; "bar"; "foo"] in Hn.
    repeat (apply elem_of_cons in Hn as [->|Hn]; [vm_compute; reflexivity|]).
    inversion Hn.
Defined.


(** C5, as stated.  [foo] stands in both sections, and the entry under
    [foo] is located in [dependencies]: it is the record of [m], whose
    installed descriptor calls itself [foo], while the record of [foo]
    is filed under [x]. *)
Lemma declared_name_entry_elsewhere :
  exists dependenciesByName dependency,
    loadPackageJson swapped_disk "/a" = Fulfilled descriptor_swapped
    /\ Object_keys (field descriptor_swapped "dependencies") = ["foo"; "m"]
    /\ Object_keys (field descriptor_swapped "devDependencies") = ["foo"]
    /\ loadAllProjectDependencies swapped_disk "/a" [0; 1; 2]%nat
       = Fulfilled dependenciesByName
    /\ dependenciesByName !! "foo" = Some dependency
    /\ field dependency "name" = VStr "foo"
    /\ field dependency "location" = VStr "dependencies".
Proof.
  exists (<["foo" := VObj [("name", VStr "foo"); ("status", VStr "idle");
                           ("location", VStr "dependencies")]]>
            {["x" := VObj [("name", VStr "x"); ("status", VStr "idle");
                           ("location", VStr "devDependencies")]]}).
  exists (VObj [("name", VStr "foo"); ("status", VStr "idle");
                ("location", VStr "dependencies")]).
  do 4 (split; [vm_compute; reflexivity|]).
  split; [apply lookup_insert_eq|]. split; reflexivity.
Qed.

Lemma both_sections_devDependencies_witness :
  (exists dependency,
     ({["foo" := dependency_foo]} : gmap string value) !! "foo" = Some dependency
     /\ field dependency "location" = VStr "devDependencies")
  /\ (field descriptor_foo "name" = VStr "foo" ->
      exists dependency,
        ({["foo" := dependency_foo]} : gmap string value) !! "foo"
        = Some dependency
        /\ field dependency "location" = VStr "devDependencies").
Proof.
  apply (both_sections_devDependencies tidy_disk "/a" [2; 0; 1]%nat
           descriptor_a queue_a {["foo" := dependency_foo]} "foo"
           descriptor_foo "foo").
  - vm_compute. reflexivity.
  - reflexivity.
  - apply (bool_decide_unpack _). vm_compute. exact I.
  - vm_compute. reflexivity.
  - apply (bool_decide_unpack _). vm_compute. exact I.
  - apply (bool_decide_unpack _). vm_compute. exact I.
  - vm_compute. reflexivity.
  - reflexivity.
Defined.

Lemma loadProjectDependency_record_witness :
  exists record,
    loadProjectDependency tidy_disk "/a" "foo" devDependencies
    = Fulfilled (VObj record)
    /\ record
       = [("name", VStr "foo"); ("version", VStr "1.2.0");
          ("license", VStr "MIT"); ("status", VStr "idle");
          ("location", VStr "devDependencies")]
    /\ NoDup (keys record)
    /\ (forall k, k ∈ keys record <->
          (k ∈ ["name"; "description"; "keywords"; "version"; "homepage";
                "license"; "repository"]
           /\ field descriptor_foo k <> VUndefined)
          \/ k = "status" \/ k = "location")
    /\ (forall k,
          k ∈ ["name"; "description"; "keywords"; "version"; "homepage";
               "license"; "repository"] ->
          own record k = field descriptor_foo k)
    /\ own record "status" = VStr "idle"
    /\ own record "location" = VStr "devDependencies".
Proof.
  apply (loadProjectDependency_record tidy_disk "/a" "foo" devDependencies
           (text descriptor_foo) descriptor_foo).
  - vm_compute. reflexivity.
  - vm_compute. reflexivity.
Defined.

(** C8, as stated.  The descriptor of [/a] declares [__skpm_icon]; the
    record [loadProject] returns does not map that field to the value
    parsed from the descriptor. *)
Lemma reserved_key_of_descriptor_overwritten :
  exists json record,
    loadPackageJson clash_disk "/a" = Fulfilled json
    /\ loadProject clash_disk "/a" = Fulfilled record
    /\ field json "__skpm_icon" = VStr "mine"
    /\ field record "__skpm_icon" = VUndefined.
Proof. do 2 eexists. repeat split; vm_compute; reflexivity. Qed.

Lemma loadProject_frame_witness :
  exists json,
    loadPackageJson tidy_disk "/a" = Fulfilled json
    /\ (forall k, k ∉ reserved_keys -> field record_a k = field json k)
    /\ field record_a "__skpm_manifest" = manifest_of tidy_disk "/a" json
    /\ field record_a "__skpm_icon" = icon_of tidy_disk "/a"
    /\ field record_a "__skpm_createdAt" = createdAt_of tidy_disk "/a".
Proof.
  apply (loadProject_frame tidy_disk "/a" record_a).
  vm_compute. reflexivity.
Defined.

(** C9, as stated.  The load of [/a2] completes first, the load of [/a]
    later; both carry the name [a]; the mapping holds the record of
    [/a2], the later path of the array and the earlier completion. *)
Lemma later_completion_does_not_win :
  loadProject twin_disk "/a" = Fulfilled record_a
  /\ loadProject twin_disk "/a2" = Fulfilled record_a2
  /\ name_key record_a = Ok "a" /\ name_key record_a2 = Ok "a"
  /\ field record_a "version" = VStr "0.1.0"
  /\ field record_a2 "version" = VStr "0.2.0"
  /\ loadProjects twin_disk ["/a"; "/a2"] [1; 0]%nat
     = Fulfilled {["a" := record_a2]}.
Proof. repeat split; vm_compute; reflexivity. Qed.

Lemma loadProjects_last_path_wins_witness :
  exists projects,
    loadProjects twin_disk ["/a"; "/a2"] [1; 0]%nat = Fulfilled projects
    /\ forall before p after record k,
         ["/a"; "/a2"] = before ++ p :: after ->
         loadProject twin_disk p = Fulfilled record ->
         name_key record = Ok k ->
         (forall p' record', p' ∈ after ->
            loadProject twin_disk p' = Fulfilled record' ->
            name_key record' <> Ok k) ->
         projects !! k = Some record.
Proof.
  apply (loadProjects_last_path_wins twin_disk ["/a"; "/a2"] [1; 0]%nat).
  - apply (bool_decide_unpack _). vm_compute. exact I.
  - intros p Hp.
    apply elem_of_cons in Hp as [->|Hp]; [vm_compute; discriminate|].
    apply elem_of_cons in Hp as [->|Hp]; [vm_compute; discriminate|].
    inversion Hp.
  - intros p record Hp.
    apply elem_of_cons in Hp as [->|Hp];
      [vm_compute; intros [= <-]; eexists; reflexivity|].
    apply elem_of_cons in Hp as [->|Hp];
      [vm_compute; intros [= <-]; eexists; reflexivity|].
    inversion Hp.
Defined.

Lemma rejected_batch_never_settles_witness :
  loadProjectDependencies locked_disk "/a" queue_a [1; 0; 2]%nat
  = Rejected (SystemError "EACCES")
  /\ loadAllProjectDependencies locked_disk "/a" [1; 0; 2]%nat = Pending.
Proof.
  split; [vm_compute; reflexivity|].
  apply (rejected_batch_never_settles locked_disk "/a" [1; 0; 2]%nat
           descriptor_a queue_a (SystemError "EACCES")).
  - vm_compute. reflexivity.
  - reflexivity.
  - vm_compute. reflexivity.
Defined.

(* ================================================================= *)
(** ** [asyncMap] on nothing *)

Lemma map_step_nothing {A} (iteratee : A -> called) (order : list nat)
    (st : map_state) :
  fold_left (map_step [] iteratee) order st = st.
Proof. induction order as [|i order IH]; [reflexivity | exact IH]. Qed.

Lemma asyncMap_nothing {A} (iteratee : A -> called) (order : list nat) :
  asyncMap [] iteratee order = Final None [].
Proof. unfold asyncMap. now rewrite map_step_nothing. Qed.

Lemma forallb_false_elem {A} (f : A -> bool) (l : list A) :
  forallb f l = false -> exists x, x ∈ l /\ f x = false.
Proof.
  induction l as [|a l IH]; [discriminate|]. cbn [forallb].
  destruct (f a) eqn:E.
  - intros (x & Hx & Hf)%IH. exists x. split; [now right | exact Hf].
  - intros _. exists a. split; [left | exact E].
Qed.

(* ================================================================= *)
(** ** [loadProject]: when it settles and how *)

(** A descriptor that is no object has no manifest path to offer. *)
Lemma index_of_letter (k : string) (len : nat) :
  match k with
  | String c _ => JSON.is_digit c = false
  | "" => True
  end ->
  index_of k len = None.
Proof.
  intros Hk. destruct (index_of k len) as [i|] eqn:E; [|reflexivity].
  apply index_of_numeral in E.
  destruct (dec_head (N.of_nat i)) as (c & t & Hdec & Hc).
  rewrite Hdec in E. subst k. congruence.
Qed.

Lemma manifest_path_None (pf : Platform) (projectPath : string)
    (packageJson : value) :
  manifest_path packageJson = None ->
  (let! skpm := get packageJson "skpm" in
   let! manifest := get skpm "manifest" in
   join_segment pf projectPath manifest) = Throw TypeError.
Proof.
  unfold manifest_path, get, result_bind.
  destruct packageJson as [| |b|n| |s|elems named|ps]; try reflexivity.
  - now destruct (field (VStr s) "skpm");
      try destruct (field _ "manifest").
  - now destruct (field (VArr elems named) "skpm");
      try destruct (field _ "manifest").
  - now destruct (field (VObj ps) "skpm");
      try destruct (field _ "manifest").
Qed.

Lemma manifest_path_Some (pf : Platform) (projectPath : string)
    (packageJson : value) (s : string) :
  manifest_path packageJson = Some s ->
  (let! skpm := get packageJson "skpm" in
   let! manifest := get skpm "manifest" in
   join_segment pf projectPath manifest) = Ok (path_join pf [projectPath; s]).
Proof.
  unfold manifest_path, get, result_bind.
  destruct packageJson as [| |b|n| |s'|elems named|ps]; try discriminate.
  - destruct (field (VStr s') "skpm"); try discriminate;
      destruct (field _ "manifest"); try discriminate; now intros [= ->].
  - destruct (field (VArr elems named) "skpm"); try discriminate;
      destruct (field _ "manifest"); try discriminate; now intros [= ->].
  - destruct (field (VObj ps) "skpm"); try discriminate;
      destruct (field _ "manifest"); try discriminate; now intros [= ->].
Qed.

Lemma loadManifestJson_unfold (pf : Platform) (projectPath : string)
    (packageJson : value) :
  loadManifestJson pf projectPath packageJson
  = match manifest_path packageJson with
    | None => Rejected TypeError
    | Some s =>
        match readFile pf (path_join pf [projectPath; s]) utf8 with
        | inl err => Rejected err
        | inr data =>
            match JSON.parse data with
            | Ok json => Fulfilled json
            | Throw _ => Pending
            end
        end
    end.
Proof.
  unfold loadManifestJson, manifest_path, get, result_bind.
  destruct packageJson as [| |b|n| |s'|elems named|ps]; try reflexivity.
  - destruct (field (VStr s') "skpm"); try reflexivity;
      destruct (field _ "manifest"); try reflexivity;
      cbn [join_segment new_Promise];
      destruct (readFile pf _ utf8); try reflexivity;
      now destruct (JSON.parse _).
  - destruct (field (VArr elems named) "skpm"); try reflexivity;
      destruct (field _ "manifest"); try reflexivity;
      cbn [join_segment new_Promise];
      destruct (readFile pf _ utf8); try reflexivity;
      now destruct (JSON.parse _).
  - destruct (field (VObj ps) "skpm"); try reflexivity;
      destruct (field _ "manifest"); try reflexivity;
      cbn [join_segment new_Promise];
      destruct (readFile pf _ utf8); try reflexivity;
      now destruct (JSON.parse _).
Qed.

Lemma primitive_no_manifest_path (json : value) :
  is_object json = false -> manifest_path json = None.
Proof.
  destruct json as [| |b|n| |s|elems named|ps]; try discriminate; try reflexivity.
  intros _. unfold manifest_path. cbn [field].
  change (String.eqb "skpm" "length") with false. cbv iota.
  now rewrite index_of_letter.
Qed.

Lemma merged_primitive (json manifest icon createdAt : value) :
  is_object json = false ->
  merged json manifest icon createdAt = Throw TypeError.
Proof. destruct json; try discriminate; reflexivity. Qed.

Lemma merged_object (json manifest icon createdAt : value) :
  is_object json = true ->
  exists record, merged json manifest icon createdAt = Ok record.
Proof. destruct json; try discriminate; intros _; eexists; reflexivity. Qed.

Lemma loadProject_object (pf : Platform) (projectPath : string)
    (json : value) :
  loadPackageJson pf projectPath = Fulfilled json ->
  is_object json = true ->
  loadManifestJson pf projectPath json <> Pending ->
  exists record,
    loadProject pf projectPath = Fulfilled record
    /\ merged json (manifest_of pf projectPath json) (icon_of pf projectPath)
         (createdAt_of pf projectPath) = Ok record.
Proof.
  intros Hjson Hobj Hmanifest. rewrite loadProject_unfold, Hjson.
  destruct (merged_object json (manifest_of pf projectPath json)
              (icon_of pf projectPath) (createdAt_of pf projectPath) Hobj)
    as [record Hrecord].
  exists record. rewrite Hrecord.
  destruct (loadManifestJson pf projectPath json); done.
Qed.

(** X1.  [loadProject] is fulfilled exactly when the descriptor is read as
    an object and the read of the manifest settles, one way or the other;
    the reads of the icon and of the creation time play no part, and a
    part whose read failed is [undefined] in the record. *)
Theorem loadProject_fulfilled_iff (pf : Platform) (projectPath : string) :
  ((exists record, loadProject pf projectPath = Fulfilled record)
   <-> exists json,
         loadPackageJson pf projectPath = Fulfilled json
         /\ is_object json = true
         /\ loadManifestJson pf projectPath json <> Pending)
  /\ (forall record json,
        loadProject pf projectPath = Fulfilled record ->
        loadPackageJson pf projectPath = Fulfilled json ->
        (forall e, loadManifestJson pf projectPath json = Rejected e ->
                   field record "__skpm_manifest" = VUndefined)
        /\ (forall e, loadIcon pf projectPath = Rejected e ->
                      field record "__skpm_icon" = VUndefined)
        /\ (forall e, loadProjectFSStat pf projectPath = Rejected e ->
                      field record "__skpm_createdAt" = VUndefined)).
Proof.
  split; [split|].
  - intros [record Hload]. rewrite loadProject_unfold in Hload.
    destruct (loadPackageJson pf projectPath) as [json| |]; try discriminate.
    exists json. split; [reflexivity|].
    destruct (is_object json) eqn:Hobj.
    + split; [reflexivity|]. intros Hpending. now rewrite Hpending in Hload.
    + rewrite (merged_primitive _ _ _ _ Hobj) in Hload.
      destruct (loadManifestJson pf projectPath json); discriminate.
  - intros (json & Hjson & Hobj & Hmanifest).
    destruct (loadProject_object _ _ _ Hjson Hobj Hmanifest) as (r & Hr & _).
    eauto.
  - intros record json Hload Hjson.
    destruct (loadProject_fulfilled _ _ _ Hload) as (json' & Hjson' & Hmerged).
    assert (json' = json) as -> by congruence.
    destruct (merged_fields _ _ _ _ _ Hmerged) as (_ & Hm & Hi & Hc).
    rewrite Hm, Hi, Hc. unfold manifest_of, icon_of, createdAt_of.
    repeat split; intros e ->; reflexivity.
Qed.

(** X2.  A descriptor that holds JSON other than an object or an array
    ([null], a number, a string, a boolean): the assignment of the first
    reserved key throws, and [loadProject] is rejected with
    [TypeError]. *)
Theorem loadProject_primitive_descriptor (pf : Platform) (projectPath : string)
    (json : value) :
  loadPackageJson pf projectPath = Fulfilled json ->
  is_object json = false ->
  loadManifestJson pf projectPath json = Rejected TypeError
  /\ loadProject pf projectPath = Rejected TypeError.
Proof.
  intros Hjson Hobj.
  assert (Hmanifest : loadManifestJson pf projectPath json = Rejected TypeError).
  { rewrite loadManifestJson_unfold.
    now rewrite (primitive_no_manifest_path _ Hobj). }
  split; [exact Hmanifest|].
  rewrite loadProject_unfold, Hjson, Hmanifest.
  now rewrite (merged_primitive _ _ _ _ Hobj).
Qed.

(* ================================================================= *)
(** ** [loadProjects]: the whole answer *)

Section loadProjects_answer.
Variables (pf : Platform) (projectPaths : list string) (order : list nat).
Hypothesis Horder : order ≡ₚ seq 0 (length projectPaths).

(** The answer of [loadProjects], by cases on whether every load
    settles. *)
Lemma loadProjects_cases :
  loadProjects pf projectPaths order
  = if forallb (fun p => settles (loadProject pf p)) projectPaths
    then match by_name (omap (loaded pf) projectPaths) with
         | Ok projects => Fulfilled projects
         | Throw _ => Pending
         end
    else Pending.
Proof.
  destruct (forallb _ projectPaths) eqn:Hall.
  - apply (loadProjects_settled pf projectPaths order Horder).
    intros p Hp Hpending. rewrite forallb_forall in Hall.
    specialize (Hall p (proj1 (list_elem_of_In _ _) Hp)).
    now rewrite Hpending in Hall.
  - apply forallb_false_elem in Hall as (p & Hp & Hpending).
    apply (loadProjects_pending pf projectPaths order Horder p Hp).
    now destruct (loadProject pf p).
Qed.

Lemma loadProjects_inv (projects : gmap string value) :
  loadProjects pf projectPaths order = Fulfilled projects ->
  by_name (omap (loaded pf) projectPaths) = Ok projects.
Proof.
  rewrite loadProjects_cases.
  destruct (forallb _ projectPaths); [|discriminate].
  destruct (by_name _); congruence.
Qed.

(** X3.  The keys of the mapping are the names of the projects that
    loaded. *)
Theorem loadProjects_key_set :
  (forall p, p ∈ projectPaths -> loadProject pf p <> Pending) ->
  (forall p record, p ∈ projectPaths -> loadProject pf p = Fulfilled record ->
                    exists k, name_key record = Ok k) ->
  exists projects,
    loadProjects pf projectPaths order = Fulfilled projects
    /\ forall k, k ∈ dom projects <->
         exists p record, p ∈ projectPaths
                          /\ loadProject pf p = Fulfilled record
                          /\ name_key record = Ok k.
Proof. exact (loadProjects_keys pf projectPaths order Horder). Qed.

(** X4.  Every entry of the mapping is the record of a path that loaded,
    filed under the name the record carries. *)
Theorem loadProjects_entries (projects : gmap string value) (k : string)
    (record : value) :
  loadProjects pf projectPaths order = Fulfilled projects ->
  projects !! k = Some record ->
  name_key record = Ok k
  /\ truthy record = true
  /\ exists p, p ∈ projectPaths /\ loadProject pf p = Fulfilled record.
Proof.
  intros Hm%loadProjects_inv Hk.
  destruct (by_name_lookup _ _ _ _ Hm Hk) as [Hin Hname].
  apply list_elem_of_omap in Hin as (p & Hp & Hloaded).
  unfold loaded in Hloaded.
  destruct (loadProject pf p) as [r| |] eqn:Hr; try discriminate.
  injection Hloaded as ->. split; [exact Hname|].
  split; [exact (loadProject_truthy _ _ _ Hr)|]. eauto.
Qed.

(** X5.  Every project that loads is filed, under the key its name
    denotes; a record without a name is filed under [undefined]. *)
Theorem loadProjects_files_every_record (projects : gmap string value)
    (p : string) (record : value) :
  loadProjects pf projectPaths order = Fulfilled projects ->
  p ∈ projectPaths ->
  loadProject pf p = Fulfilled record ->
  exists k,
    name_key record = Ok k
    /\ k ∈ dom projects
    /\ (field record "name" = VUndefined -> k = "undefined").
Proof.
  intros Hm%loadProjects_inv Hp Hload.
  assert (Hin : record ∈ omap (loaded pf) projectPaths).
  { apply list_elem_of_omap. exists p. split; [exact Hp|].
    unfold loaded. now rewrite Hload. }
  destruct (name_key record) as [k|e] eqn:Hk.
  - exists k. split; [reflexivity|]. split.
    + apply (by_name_dom _ _ Hm). eauto.
    + intros Hname. unfold name_key in Hk. rewrite Hname in Hk.
      now injection Hk as <-.
  - destruct (by_name_throw _ _ _ Hin Hk) as [e' He']. congruence.
Qed.

(** X6.  One project whose descriptor or manifest is read and never
    handed on keeps [loadProjects] from ever answering, whatever the
    other projects are. *)
Theorem loadProjects_blocked (p : string) :
  p ∈ projectPaths ->
  loadPackageJson pf p = Pending
  \/ (exists json, loadPackageJson pf p = Fulfilled json
                   /\ loadManifestJson pf p json = Pending) ->
  loadProjects pf projectPaths order = Pending.
Proof.
  intros Hp Hblocked.
  apply (loadProjects_pending pf projectPaths order Horder p Hp).
  rewrite loadProject_unfold.
  destruct Hblocked as [-> | (json & -> & ->)]; reflexivity.
Qed.
End loadProjects_answer.

(** X7.  Without paths there is nothing to load: the answer is the empty
    mapping. *)
Theorem loadProjects_no_paths (pf : Platform) (order : list nat) :
  loadProjects pf [] order = Fulfilled ∅.
Proof. unfold loadProjects. now rewrite asyncMap_nothing. Qed.

(** X8.  The order in which the loads complete has no part in the
    answer. *)
Theorem loadProjects_any_order (pf : Platform) (projectPaths : list string)
    (order order' : list nat) :
  order ≡ₚ seq 0 (length projectPaths) ->
  order' ≡ₚ seq 0 (length projectPaths) ->
  loadProjects pf projectPaths order = loadProjects pf projectPaths order'.
Proof.
  intros Horder Horder'.
  now rewrite (loadProjects_cases pf projectPaths order Horder),
    (loadProjects_cases pf projectPaths order' Horder').
Qed.

(** X9.  A path whose load is rejected counts for nothing: the answer is
    that of the paths without it. *)
Theorem loadProjects_skips_rejected (pf : Platform)
    (before after : list string) (p : string) (e : error)
    (order order' : list nat) :
  order ≡ₚ seq 0 (length (before ++ p :: after)) ->
  order' ≡ₚ seq 0 (length (before ++ after)) ->
  loadProject pf p = Rejected e ->
  loadProjects pf (before ++ p :: after) order
  = loadProjects pf (before ++ after) order'.
Proof.
  intros Horder Horder' Hp.
  rewrite (loadProjects_cases pf _ order Horder),
    (loadProjects_cases pf _ order' Horder').
  rewrite !forallb_app, !omap_app. cbn [forallb omap list_omap].
  unfold loaded at 2. rewrite Hp. reflexivity.
Qed.

(* ================================================================= *)
(** ** What a write keeps *)

Lemma writeFile_accepted (pf : Platform) (path data : string) :
  fs_write_error pf path = None ->
  fst (writeFile pf path data) = None
  /\ path_join (snd (writeFile pf path data)) = path_join pf
  /\ fs_stat (snd (writeFile pf path data)) = fs_stat pf
  /\ (forall enc,
        readFile (snd (writeFile pf path data)) path enc
        = readFile {| path_join := path_join pf;
                      fs_content := fun _ => inr data;
                      fs_stat := fs_stat pf;
                      fs_write_error := fs_write_error pf |} path enc)
  /\ (forall path' enc, path' <> path ->
        readFile (snd (writeFile pf path data)) path' enc
        = readFile pf path' enc).
Proof.
  intros Hw. unfold writeFile. rewrite Hw. cbn [fst snd path_join fs_stat].
  repeat split.
  - intros enc. unfold readFile. cbn [fs_content].
    now rewrite String.eqb_refl.
  - intros path' enc Hne. unfold readFile. cbn [fs_content].
    destruct (String.eqb_spec path' path); [done | reflexivity].
Qed.

Lemma omap_step {A B} (f : A -> option B) (x : A) (l : list A) :
  omap f (x :: l)
  = match f x with
    | Some y => y :: omap f l
    | None => omap f l
    end.
Proof. reflexivity. Qed.

Lemma serialize_kept (v : value) :
  forall stepback, JSON.serialize stepback (kept v) = JSON.serialize stepback v.
Proof.
  induction v as [| |b|n| |s|elems named IHe _|ps IHp] using value_ind;
    intros stepback; try reflexivity.
  - cbn [kept JSON.serialize].
    assert (Hmap : forall indent,
      map (fun e => default "null" (JSON.serialize indent e))
        (map (fun e => match e with
                       | VUndefined => VNull
                       | _ => kept e
                       end) elems)
      = map (fun e => default "null" (JSON.serialize indent e)) elems).
    { intros indent. rewrite map_map. apply map_ext_Forall.
      eapply Forall_impl; [exact IHe|]. cbn beta.
      intros e He. destruct e; try (now rewrite He); reflexivity. }
    destruct elems as [|e elems]; [reflexivity|].
    rewrite Hmap. reflexivity.
  - cbn [kept JSON.serialize].
    assert (Hmap : forall indent,
      omap (fun p : string * value =>
              let '(k, x) := p in
              match JSON.serialize indent x with
              | Some s => Some (JSON.quote k +:+ String ":" (String " " s))
              | None => None
              end)
        (omap (fun p : string * value =>
                 let '(k, x) := p in
                 match x with
                 | VUndefined => None
                 | _ => Some (k, kept x)
                 end) ps)
      = omap (fun p : string * value =>
                let '(k, x) := p in
                match JSON.serialize indent x with
                | Some s => Some (JSON.quote k +:+ String ":" (String " " s))
                | None => None
                end) ps).
    { intros indent. induction IHp as [|[k x] ps Hx _ IH]; [reflexivity|].
      cbn [snd] in Hx. specialize (Hx indent).
      destruct x; [exact IH|..];
        repeat (rewrite omap_step; cbv beta iota);
        rewrite ?Hx, ?IH; reflexivity. }
    now rewrite Hmap.
Qed.

Lemma kept_json (v : value) : is_json v = true -> kept v = v.
Proof.
  induction v as [| |b|n| |s|elems named IHe _|ps IHp] using value_ind;
    try reflexivity; try discriminate; cbn [is_json kept].
  - intros [Hes Hnamed]%andb_true_iff.
    destruct named; [|discriminate]. f_equal.
    rewrite <- (map_id elems) at 2. apply map_ext_Forall.
    pose proof (Forall_is_json_elems (fun e => kept e = e) _ IHe Hes) as Hall.
    rewrite forallb_forall in Hes.
    apply Forall_forall. intros e He.
    rewrite Forall_forall in Hall. specialize (Hall e He).
    specialize (Hes e (proj1 (list_elem_of_In _ _) He)).
    destruct e; try discriminate; exact Hall.
  - intros [_ Hps]%andb_true_iff. f_equal.
    induction IHp as [|[k x] ps Hx _ IH]; [reflexivity|].
    cbn [forallb snd] in Hps, Hx. apply andb_true_iff in Hps as [Hjx Hps].
    cbn [omap list_omap]. rewrite (IH Hps).
    destruct x; try discriminate; now rewrite (Hx Hjx).
Qed.

Lemma kept_written (pf : Platform) (projectPath : string) (X : value) :
  is_json (kept X) = true ->
  fs_write_error pf (path_join pf [projectPath; "package.json"]) = None ->
  fst (writePackageJson pf projectPath X) = Fulfilled X
  /\ loadPackageJson (snd (writePackageJson pf projectPath X)) projectPath
     = Fulfilled (kept X).
Proof.
  intros Hjson Hw. unfold writePackageJson.
  destruct (parse_stringify (kept X) Hjson) as (data & Hdata & Hparse).
  unfold JSON.stringify in *. rewrite serialize_kept in Hdata.
  rewrite Hdata. cbn [default from_option id].
  destruct (writeFile_accepted pf (path_join pf [projectPath; "package.json"])
              data Hw) as (Hfst & Hjoin & _ & Hread & _).
  destruct (writeFile pf _ data) as [err pf'] eqn:E. cbn [fst snd] in *.
  subst err. split; [reflexivity|].
  unfold loadPackageJson. rewrite Hjoin, Hread.
  unfold readFile. cbn [fs_content]. now rewrite Hparse.
Qed.

Lemma is_object_kept (v : value) : is_object (kept v) = is_object v.
Proof. now destruct v. Qed.




Lemma is_json_value (v : value) : is_json v = true -> json_value v = true.
Proof.
  induction v as [| |b|n| |s|elems named IHe _|ps IHp] using value_ind;
    try (intros H; exact H); try discriminate; cbn [json_value is_json].
  - intros [Hes ->]%andb_true_iff. rewrite andb_true_r.
    apply forallb_forall. intros e He.
    rewrite forallb_forall in Hes. rewrite Forall_forall in IHe.
    exact (IHe e (proj2 (list_elem_of_In _ _) He) (Hes e He)).
  - intros [-> Hps]%andb_true_iff. cbn [andb].
    induction IHp as [|[k x] ps Hx _ IH]; [reflexivity|].
    cbn [forallb snd] in Hps, Hx |- *.
    apply andb_true_iff in Hps as [Hjx Hps]. now rewrite (Hx Hjx), (IH Hps).
Qed.

(** X13.  The promise of [writePackageJson] is fulfilled with the value it
    was given, while the file holds what [JSON.stringify] keeps of it: a
    property whose value is [undefined] is gone from what
    [loadPackageJson] reads back, an [undefined] element of an array
    reads back [null].  A JSON value is kept whole. *)
Theorem writePackageJson_keeps (pf : Platform) (projectPath : string)
    (X : value) :
  is_json (kept X) = true ->
  fs_write_error pf (path_join pf [projectPath; "package.json"]) = None ->
  fst (writePackageJson pf projectPath X) = Fulfilled X
  /\ loadPackageJson (snd (writePackageJson pf projectPath X)) projectPath
     = Fulfilled (kept X)
  /\ (is_json X = true -> kept X = X).
Proof.
  intros Hjson Hw. destruct (kept_written pf projectPath X Hjson Hw) as [H1 H2].
  split; [exact H1|]. split; [exact H2 | exact (kept_json X)].
Qed.


(* ================================================================= *)
(** ** The manifest: written and read *)

Lemma writeManifestJson_unfold (pf : Platform) (projectPath : string)
    (packageJson json : value) :
  writeManifestJson pf projectPath packageJson json
  = match manifest_path packageJson with
    | None => (Rejected TypeError, pf)
    | Some s =>
        let path := path_join pf [projectPath; s] in
        let data := default "undefined" (JSON.stringify json) in
        (match fst (writeFile pf path data) with
         | Some err => Rejected err
         | None => Fulfilled json
         end,
         snd (writeFile pf path data))
    end.
Proof.
  unfold writeManifestJson.
  destruct (manifest_path packageJson) as [s|] eqn:E.
  - rewrite (manifest_path_Some pf projectPath _ _ E).
    destruct (writeFile pf _ _) as [[err|] pf']; reflexivity.
  - now rewrite (manifest_path_None pf projectPath _ E).
Qed.

(** X10.  A descriptor that names no manifest path, for want of an [skpm]
    section or of a string under [manifest]: the read and the write of the
    manifest are both rejected with [TypeError], and the write leaves the
    disk as it was. *)
Theorem manifest_path_missing (pf : Platform) (projectPath : string)
    (packageJson json : value) :
  manifest_path packageJson = None ->
  loadManifestJson pf projectPath packageJson = Rejected TypeError
  /\ writeManifestJson pf projectPath packageJson json
     = (Rejected TypeError, pf).
Proof.
  intros Hpath. rewrite loadManifestJson_unfold, writeManifestJson_unfold.
  now rewrite Hpath.
Qed.

Lemma manifest_path_field (packageJson : value) (s : string) :
  field (field packageJson "skpm") "manifest" = VStr s ->
  manifest_path packageJson = Some s.
Proof. unfold manifest_path. now intros ->. Qed.

Lemma manifest_kept_written (pf : Platform) (projectPath : string)
    (packageJson json : value) (s : string) :
  manifest_path packageJson = Some s ->
  is_json (kept json) = true ->
  fs_write_error pf (path_join pf [projectPath; s]) = None ->
  fst (writeManifestJson pf projectPath packageJson json) = Fulfilled json
  /\ loadManifestJson (snd (writeManifestJson pf projectPath packageJson json))
       projectPath packageJson
     = Fulfilled (kept json).
Proof.
  intros Hpath Hjson Hw.
  rewrite writeManifestJson_unfold, Hpath. cbn zeta. cbn [fst snd].
  destruct (parse_stringify (kept json) Hjson) as (data & Hdata & Hparse).
  unfold JSON.stringify in *. rewrite serialize_kept in Hdata.
  rewrite Hdata. cbn [default from_option id].
  destruct (writeFile_accepted pf _ data Hw) as (-> & Hjoin & _ & Hread & _).
  split; [reflexivity|].
  rewrite loadManifestJson_unfold, Hpath, Hjoin, Hread.
  unfold readFile. cbn [fs_content]. now rewrite Hparse.
Qed.

(** X11.  What [writeManifestJson] wrote, [loadManifestJson] reads back,
    both going by the path the descriptor names under
    [skpm.manifest]: for a value of which [JSON.stringify] keeps a JSON
    value of the model, the write is fulfilled with the value it was
    given and the read with what is kept of it, which is the value
    itself when it is such a JSON value. *)
Theorem writeManifestJson_then_loadManifestJson (pf : Platform)
    (projectPath : string) (packageJson json : value) (s : string) :
  field (field packageJson "skpm") "manifest" = VStr s ->
  is_json (kept json) = true ->
  fs_write_error pf (path_join pf [projectPath; s]) = None ->
  fst (writeManifestJson pf projectPath packageJson json) = Fulfilled json
  /\ loadManifestJson (snd (writeManifestJson pf projectPath packageJson json))
       projectPath packageJson
     = Fulfilled (kept json)
  /\ (is_json json = true -> kept json = json).
Proof.
  intros Hpath%manifest_path_field Hjson Hw.
  destruct (manifest_kept_written pf projectPath packageJson json s Hpath
              Hjson Hw) as [H1 H2].
  split; [exact H1|]. split; [exact H2 | exact (kept_json json)].
Qed.

Lemma manifest_path_object (packageJson : value) (s : string) :
  manifest_path packageJson = Some s -> is_object packageJson = true.
Proof.
  intros Hpath. destruct (is_object packageJson) eqn:Hobj; [reflexivity|].
  rewrite (primitive_no_manifest_path _ Hobj) in Hpath. discriminate.
Qed.

(** X12.  The manifest that was written is the manifest [loadProject]
    merges: after the write, the project loads with what is kept of the
    written value under [__skpm_manifest] and the fields of its
    descriptor as they were. *)
Theorem writeManifestJson_then_loadProject (pf : Platform)
    (projectPath : string) (packageJson json : value) (s : string) :
  loadPackageJson pf projectPath = Fulfilled packageJson ->
  field (field packageJson "skpm") "manifest" = VStr s ->
  path_join pf [projectPath; s] <> path_join pf [projectPath; "package.json"] ->
  is_json (kept json) = true ->
  fs_write_error pf (path_join pf [projectPath; s]) = None ->
  exists record,
    loadProject (snd (writeManifestJson pf projectPath packageJson json))
      projectPath
    = Fulfilled record
    /\ field record "__skpm_manifest" = kept json
    /\ forall k, k ∉ reserved_keys -> field record k = field packageJson k.
Proof.
  intros Hdescriptor Hpath%manifest_path_field Hne Hjson Hw.
  destruct (manifest_kept_written pf projectPath packageJson json s Hpath
              Hjson Hw) as [_ Hmanifest].
  set (pf' := snd (writeManifestJson pf projectPath packageJson json)) in *.
  assert (Hdescriptor' : loadPackageJson pf' projectPath = Fulfilled packageJson).
  { rewrite <- Hdescriptor. unfold pf'.
    rewrite writeManifestJson_unfold, Hpath. cbn zeta. cbn [snd].
    destruct (writeFile_accepted pf (path_join pf [projectPath; s])
                (default "undefined" (JSON.stringify json)) Hw)
      as (_ & Hjoin & _ & _ & Hother).
    unfold loadPackageJson. rewrite Hjoin, Hother; [reflexivity|].
    intros E. now apply Hne. }
  destruct (loadProject_object pf' projectPath packageJson Hdescriptor'
              (manifest_path_object _ _ Hpath))
    as (record & Hload & Hmerged).
  { now rewrite Hmanifest. }
  exists record. split; [exact Hload|].
  destruct (merged_fields _ _ _ _ _ Hmerged) as (Hframe & Hm & _).
  split; [|exact Hframe].
  rewrite Hm. unfold manifest_of. now rewrite Hmanifest.
Qed.

(* ================================================================= *)
(** ** What [JSON.parse] hands on *)

Lemma parse_defined (text : string) (v : value) :
  JSON.parse text = Ok v -> v <> VUndefined.
Proof.
  unfold JSON.parse, JSON.parse_text. intros H ->.
  destruct (JSON.parse_value _ text) as [[v rest]|] eqn:E; [|discriminate].
  destruct (String.eqb _ _); [|discriminate]. injection H as ->.
  cbn [JSON.parse_value] in E.
  repeat match type of E with
         | context [match ?x with _ => _ end] => destruct x; try discriminate
         end.
Qed.

Lemma loadPackageJson_Fulfilled (pf : Platform) (projectPath : string)
    (json : value) :
  loadPackageJson pf projectPath = Fulfilled json ->
  exists data,
    readFile pf (path_join pf [projectPath; "package.json"]) utf8 = inr data
    /\ JSON.parse data = Ok json.
Proof.
  unfold loadPackageJson, new_Promise.
  destruct (readFile pf _ utf8) as [err|data]; [discriminate|].
  destruct (JSON.parse data) as [v|] eqn:E; [|discriminate].
  intros [= <-]. eauto.
Qed.

(* ================================================================= *)
(** ** [loadProjectDependencies]: the whole answer *)

Section loadProjectDependencies_answer.
Variables (pf : Platform) (projectPath : string).
Variables (queue : list QueuedDependency) (order : list nat).
Hypothesis Horder : order ≡ₚ seq 0 (length queue).

(** The answer of the batch, by cases: a read that fails, else a read
    that never settles, else the records. *)
Lemma loadProjectDependencies_cases :
  loadProjectDependencies pf projectPath queue order
  = match first_failure pf projectPath queue order with
    | Some e => Rejected e
    | None =>
        if forallb (fun d => settles (loadProjectDependency pf projectPath
                                        (name d) (location d))) queue
        then Fulfilled (omap (resolved pf projectPath) queue)
        else Pending
    end.
Proof.
  destruct (first_failure pf projectPath queue order) as [e|] eqn:He.
  - exact (loadProjectDependencies_rejected pf projectPath queue order Horder
             e He).
  - pose proof (proj1 (first_failure_none pf projectPath queue order Horder) He)
      as Hno.
    destruct (forallb _ queue) eqn:Hall.
    + apply (loadProjectDependencies_fulfilled pf projectPath queue order Horder).
      intros d Hd. rewrite forallb_forall in Hall.
      specialize (Hall d (proj1 (list_elem_of_In _ _) Hd)).
      specialize (Hno d Hd). unfold failure in Hno.
      destruct (loadProjectDependency pf projectPath (name d) (location d));
        [eauto | discriminate | discriminate].
    + apply forallb_false_elem in Hall as (d & Hd & Hpending).
      rewrite (loadProjectDependencies_no_failure pf projectPath queue order
                 Horder He).
      replace (forallb _ order) with false; [reflexivity|].
      symmetry. apply not_true_is_false. intros Hok.
      pose proof (proj1 (succeeds_all queue _ order Horder) Hok d Hd) as [v Hv].
      destruct (loadProjectDependency pf projectPath (name d) (location d));
        discriminate.
Qed.

(** X14.  With no read that fails, one read that never settles keeps the
    batch from settling. *)
Theorem loadProjectDependencies_unsettled (d : QueuedDependency) :
  (forall d', d' ∈ queue -> failure pf projectPath d' = None) ->
  d ∈ queue ->
  loadProjectDependency pf projectPath (name d) (location d) = Pending ->
  loadProjectDependencies pf projectPath queue order = Pending.
Proof.
  intros Hno Hd Hpending. rewrite loadProjectDependencies_cases.
  rewrite (proj2 (first_failure_none pf projectPath queue order Horder) Hno).
  replace (forallb _ queue) with false; [reflexivity|].
  symmetry. apply not_true_is_false. intros Hall.
  rewrite forallb_forall in Hall.
  specialize (Hall d (proj1 (list_elem_of_In _ _) Hd)).
  now rewrite Hpending in Hall.
Qed.

(** X15.  What a fulfilled batch holds: records, never [null], each the
    answer of a queued read, [idle], at the location it was queued
    with. *)
Theorem loadProjectDependencies_results (l : list value) (x : value) :
  loadProjectDependencies pf projectPath queue order = Fulfilled l ->
  x ∈ l ->
  exists d record,
    d ∈ queue
    /\ loadProjectDependency pf projectPath (name d) (location d) = Fulfilled x
    /\ x = VObj record
    /\ own record "status" = VStr "idle"
    /\ own record "location" = VStr (location_name (location d)).
Proof.
  intros Hl Hx.
  apply (loadProjectDependencies_inv pf projectPath queue order Horder) in Hl.
  subst l. apply list_elem_of_omap in Hx as (d & Hd & Hres).
  unfold resolved in Hres.
  pose proof (loadProjectDependency_unfold pf projectPath (name d) (location d))
    as Hunfold.
  destruct (readFile pf (dependencyPath pf projectPath (name d)) utf8)
    as [err|data] eqn:Hread.
  - rewrite Hunfold in Hres. destruct (code_is err "ENOENT"); discriminate.
  - destruct (JSON.parse data) as [packageJson|] eqn:Hparse.
    + destruct (dependency_record pf projectPath (name d) (location d) data
                  packageJson Hread Hparse)
        as (record & Hload & _ & _ & _ & Hstatus & Hloc).
      rewrite Hload in Hres. injection Hres as <-.
      exists d, record. repeat split; assumption.
    + rewrite Hunfold in Hres. discriminate.
Qed.
End loadProjectDependencies_answer.

(** X16.  The order in which the reads complete decides neither whether
    the batch is fulfilled, rejected or left unsettled, nor what it is
    fulfilled with. *)
Theorem loadProjectDependencies_any_order (pf : Platform)
    (projectPath : string) (queue : list QueuedDependency)
    (order order' : list nat) :
  order ≡ₚ seq 0 (length queue) ->
  order' ≡ₚ seq 0 (length queue) ->
  (forall l, loadProjectDependencies pf projectPath queue order = Fulfilled l
             <-> loadProjectDependencies pf projectPath queue order'
                 = Fulfilled l)
  /\ ((exists e, loadProjectDependencies pf projectPath queue order
                 = Rejected e)
      <-> exists e, loadProjectDependencies pf projectPath queue order'
                    = Rejected e)
  /\ (loadProjectDependencies pf projectPath queue order = Pending
      <-> loadProjectDependencies pf projectPath queue order' = Pending).
Proof.
  intros Horder Horder'.
  rewrite (loadProjectDependencies_cases pf projectPath queue order Horder),
    (loadProjectDependencies_cases pf projectPath queue order' Horder').
  pose proof (first_failure_none pf projectPath queue order Horder) as H.
  pose proof (first_failure_none pf projectPath queue order' Horder') as H'.
  destruct (first_failure pf projectPath queue order) as [e|],
    (first_failure pf projectPath queue order') as [e'|].
  - split; [intros l; split; discriminate|].
    split; [split; intros _; eauto | split; discriminate].
  - pose proof (proj2 H (proj1 H' eq_refl)). discriminate.
  - pose proof (proj2 H' (proj1 H eq_refl)). discriminate.
  - repeat split; intros; assumption.
Qed.

(** An empty queue: nothing is read and the batch is fulfilled with the
    empty array. *)
Lemma loadProjectDependencies_nothing (pf : Platform) (projectPath : string)
    (order : list nat) :
  loadProjectDependencies pf projectPath [] order = Fulfilled [].
Proof. unfold loadProjectDependencies. now rewrite asyncMap_nothing. Qed.

(* ================================================================= *)
(** ** [loadAllProjectDependencies]: the whole answer *)

Lemma queued_Ok (packageJson : value) :
  packageJson <> VNull -> packageJson <> VUndefined ->
  queued packageJson
  = Ok (map (located packageJson) (declared packageJson)).
Proof. intros Hnull Hundef. now destruct packageJson. Qed.

Lemma queued_Throw (packageJson : value) (e : error) :
  queued packageJson = Throw e ->
  (packageJson = VNull \/ packageJson = VUndefined) /\ e = TypeError.
Proof.
  destruct packageJson; try discriminate; intros [= <-]; auto.
Qed.

(** X17.  A descriptor that declares nothing, for want of both sections or
    with both empty: the answer is the empty mapping. *)
Theorem loadAllProjectDependencies_nothing_declared (pf : Platform)
    (projectPath : string) (order : list nat) (packageJson : value) :
  loadPackageJson pf projectPath = Fulfilled packageJson ->
  packageJson <> VNull ->
  declared packageJson = [] ->
  loadAllProjectDependencies pf projectPath order = Fulfilled ∅.
Proof.
  intros Hjson Hnull Hnone.
  destruct (loadPackageJson_Fulfilled _ _ _ Hjson) as (data & _ & Hparse).
  pose proof (queued_Ok packageJson Hnull (parse_defined _ _ Hparse)) as Hq.
  rewrite Hnone in Hq. cbn [map] in Hq.
  rewrite (loadAllProjectDependencies_unfold _ _ _ _ _ Hjson Hq).
  now rewrite loadProjectDependencies_nothing.
Qed.

(** X18.  [loadAllProjectDependencies] is rejected only on account of the
    descriptor of the project: its read fails, or it holds [null]; no
    read of a dependency rejects it. *)
Theorem loadAllProjectDependencies_rejected_iff (pf : Platform)
    (projectPath : string) (order : list nat) (e : error) :
  loadAllProjectDependencies pf projectPath order = Rejected e
  <-> loadPackageJson pf projectPath = Rejected e
      \/ (loadPackageJson pf projectPath = Fulfilled VNull /\ e = TypeError).
Proof.
  unfold loadAllProjectDependencies. split.
  - destruct (loadPackageJson pf projectPath) as [packageJson|e'|] eqn:Hjson;
      cbn [then_]; [| intros [= <-]; now left | discriminate].
    destruct (queued packageJson) as [queue|e'] eqn:Hq.
    + unfold resolve_after.
      destruct (loadProjectDependencies pf projectPath queue order);
        try discriminate.
      destruct (by_name _); discriminate.
    + intros [= <-]. right.
      destruct (queued_Throw _ _ Hq) as [[-> | ->] ->]; [done|].
      destruct (loadPackageJson_Fulfilled _ _ _ Hjson) as (data & _ & Hparse).
      now destruct (parse_defined _ _ Hparse).
  - intros [-> | [-> ->]]; reflexivity.
Qed.

(** X19.  The mapping in full, when every installed descriptor is absent or
    holds JSON that carries the name it is declared under: a declared
    name that is installed is mapped to the record of its read, located
    in [devDependencies] if the name stands in that section and in
    [dependencies] if not; no other name is mapped. *)
Theorem loadAllProjectDependencies_entries (pf : Platform)
    (projectPath : string) (order : list nat) (packageJson : value)
    (queue : list QueuedDependency) :
  loadPackageJson pf projectPath = Fulfilled packageJson ->
  queued packageJson = Ok queue ->
  order ≡ₚ seq 0 (length queue) ->
  (forall n, n ∈ declared packageJson ->
             absent_or_named pf projectPath n = true) ->
  (forall n installedJson,
     n ∈ declared packageJson ->
     installed pf projectPath n = Some installedJson ->
     field installedJson "name" = VStr n) ->
  exists dependenciesByName,
    loadAllProjectDependencies pf projectPath order
    = Fulfilled dependenciesByName
    /\ (forall n,
          dependenciesByName !! n
          = if bool_decide (n ∈ declared packageJson)
            then resolved pf projectPath (located packageJson n)
            else None)
    /\ (forall n dependency,
          dependenciesByName !! n = Some dependency ->
          field dependency "location"
          = VStr (if includes (devDeps_of packageJson) n
                  then "devDependencies" else "dependencies")).
Proof.
  intros Hjson Hq Horder Hok Hnames.
  pose proof (queued_unfold _ _ Hq) as Hqueue.
  change (queue = map (located packageJson) (declared packageJson)) in Hqueue.
  assert (Hin : forall d, d ∈ queue ->
            exists n, n ∈ declared packageJson /\ d = located packageJson n).
  { intros d Hd. rewrite Hqueue in Hd.
    apply list_elem_of_fmap in Hd as (n & -> & Hn). eauto. }
  assert (Hkey : forall n x, n ∈ declared packageJson ->
            resolved pf projectPath (located packageJson n) = Some x ->
            name_key x = Ok n).
  { intros n x Hn (installedJson & Hinst & -> & _)%resolved_Some.
    apply name_key_named. exact (Hnames n installedJson Hn Hinst). }
  rewrite (loadAllProjectDependencies_unfold _ _ _ _ _ Hjson Hq).
  rewrite (loadProjectDependencies_fulfilled pf projectPath queue order Horder).
  2:{ intros d (n & Hn & ->)%Hin.
      exact (proj1 (absent_or_named_fulfilled pf projectPath
                      (located packageJson n) (Hok n Hn))). }
  cbn [resolve_after].
  destruct (by_name_ok (omap (resolved pf projectPath) queue)) as [m Hm].
  { intros x (d & (n & Hn & ->)%Hin & Hx)%list_elem_of_omap.
    exists n. exact (Hkey n x Hn Hx). }
  rewrite Hm. exists m. split; [reflexivity|].
  assert (Hsome : forall n y, m !! n = Some y ->
            n ∈ declared packageJson
            /\ resolved pf projectPath (located packageJson n) = Some y).
  { intros n y Hy. destruct (by_name_lookup _ _ _ _ Hm Hy) as [Hy_in Hy_key].
    apply list_elem_of_omap in Hy_in as (d & (n' & Hn' & ->)%Hin & Hres).
    assert (n' = n) as -> by (pose proof (Hkey n' y Hn' Hres); congruence).
    split; assumption. }
  split.
  - intros n. case_bool_decide as Hn.
    + destruct (resolved pf projectPath (located packageJson n)) as [x|] eqn:Hx.
      * assert (Hdom : n ∈ dom m).
        { apply (by_name_dom _ _ Hm). exists x. split; [|exact (Hkey n x Hn Hx)].
          apply list_elem_of_omap. exists (located packageJson n).
          split; [|exact Hx]. rewrite Hqueue. now apply list_elem_of_fmap_2. }
        apply elem_of_dom in Hdom as [y Hy].
        destruct (Hsome n y Hy) as [_ Hy']. congruence.
      * destruct (m !! n) as [y|] eqn:Hy; [|reflexivity].
        destruct (Hsome n y Hy) as [_ Hy']. congruence.
    + destruct (m !! n) as [y|] eqn:Hy; [|reflexivity].
      destruct (Hsome n y Hy) as [Hn' _]. contradiction.
  - intros n y Hy. destruct (Hsome n y Hy) as [_ Hres].
    apply resolved_Some in Hres as (_ & _ & _ & ->).
    cbn [located location]. now destruct (includes _ n).
Qed.

(** X20.  The order in which the reads complete has no part in the answer
    of [loadAllProjectDependencies], not even where it decides the error
    of the batch: that error is handed to nobody. *)
Theorem loadAllProjectDependencies_any_order (pf : Platform)
    (projectPath : string) (packageJson : value)
    (queue : list QueuedDependency) (order order' : list nat) :
  loadPackageJson pf projectPath = Fulfilled packageJson ->
  queued packageJson = Ok queue ->
  order ≡ₚ seq 0 (length queue) ->
  order' ≡ₚ seq 0 (length queue) ->
  loadAllProjectDependencies pf projectPath order
  = loadAllProjectDependencies pf projectPath order'.
Proof.
  intros Hjson Hq Horder Horder'.
  rewrite !(loadAllProjectDependencies_unfold _ _ _ _ _ Hjson Hq).
  rewrite (loadProjectDependencies_cases pf projectPath queue order Horder),
    (loadProjectDependencies_cases pf projectPath queue order' Horder').
  pose proof (first_failure_none pf projectPath queue order Horder) as H.
  pose proof (first_failure_none pf projectPath queue order' Horder') as H'.
  destruct (first_failure pf projectPath queue order) as [e|],
    (first_failure pf projectPath queue order') as [e'|]; try reflexivity.
  - pose proof (proj2 H (proj1 H' eq_refl)). discriminate.
  - pose proof (proj2 H' (proj1 H eq_refl)). discriminate.
Qed.

(* ================================================================= *)
(** ** Writing a descriptor, loading the project *)

(** X21.  A project loads with the descriptor that was written for it:
    the record agrees with what is kept of the written object on every
    field but the three reserved ones. *)
Theorem writePackageJson_then_loadProject (pf : Platform)
    (projectPath : string) (X : value) :
  is_json (kept X) = true ->
  is_object X = true ->
  fs_write_error pf (path_join pf [projectPath; "package.json"]) = None ->
  loadManifestJson (snd (writePackageJson pf projectPath X)) projectPath
    (kept X)
  <> Pending ->
  exists record,
    loadProject (snd (writePackageJson pf projectPath X)) projectPath
    = Fulfilled record
    /\ forall k, k ∉ reserved_keys -> field record k = field (kept X) k.
Proof.
  intros Hjson Hobj Hw Hmanifest.
  destruct (kept_written pf projectPath X Hjson Hw) as [_ Hread].
  rewrite <- is_object_kept in Hobj.
  destruct (loadProject_object _ projectPath (kept X) Hread Hobj Hmanifest)
    as (record & Hload & Hmerged).
  exists record. split; [exact Hload|].
  exact (proj1 (merged_fields _ _ _ _ _ Hmerged)).
Qed.

(* ================================================================= *)
(** ** The further properties on the sample disks *)

Lemma loadProject_primitive_descriptor_witness :
  loadManifestJson null_disk "/n" VNull = Rejected TypeError
  /\ loadProject null_disk "/n" = Rejected TypeError.
Proof.
  apply (loadProject_primitive_descriptor null_disk "/n" VNull).
  - vm_compute. reflexivity.
  - reflexivity.
Defined.

Lemma loadProjects_key_set_witness :
  exists projects,
    loadProjects tidy_disk ["/a"; "/b"] [1; 0]%nat = Fulfilled projects
    /\ forall k, k ∈ dom projects <->
         exists p record, p ∈ ["/a"; "/b"]
                          /\ loadProject tidy_disk p = Fulfilled record
                          /\ name_key record = Ok k.
Proof.
  apply (loadProjects_key_set tidy_disk ["/a"; "/b"] [1; 0]%nat).
  - apply (bool_decide_unpack _). vm_compute. exact I.
  - intros p Hp.
    apply elem_of_cons in Hp as [->|Hp]; [vm_compute; discriminate|].
    apply elem_of_cons in Hp as [->|Hp]; [vm_compute; discriminate|].
    inversion Hp.
  - intros p record Hp.
    apply elem_of_cons in Hp as [->|Hp];
      [vm_compute; intros [= <-]; eexists; reflexivity|].
    apply elem_of_cons in Hp as [->|Hp]; [vm_compute; discriminate|].
    inversion Hp.
Defined.

Lemma loadProjects_entries_witness :
  name_key record_a2 = Ok "a"
  /\ truthy record_a2 = true
  /\ exists p, p ∈ ["/a"; "/a2"] /\ loadProject twin_disk p = Fulfilled record_a2.
Proof.
  apply (loadProjects_entries twin_disk ["/a"; "/a2"] [1; 0]%nat
           ltac:(apply (bool_decide_unpack _); vm_compute; exact I)
           {["a" := record_a2]} "a" record_a2).
  - vm_compute. reflexivity.
  - apply lookup_singleton_eq.
Defined.

Lemma loadProjects_files_every_record_witness :
  exists k,
    name_key record_a = Ok k
    /\ k ∈ dom ({["a" := record_a2]} : gmap string value)
    /\ (field record_a "name" = VUndefined -> k = "undefined").
Proof.
  apply (loadProjects_files_every_record twin_disk ["/a"; "/a2"] [1; 0]%nat
           ltac:(apply (bool_decide_unpack _); vm_compute; exact I)
           {["a" := record_a2]} "/a" record_a).
  - vm_compute. reflexivity.
  - apply (bool_decide_unpack _). vm_compute. exact I.
  - vm_compute. reflexivity.
Defined.

Lemma loadProjects_blocked_witness :
  loadProjects cut_manifest_disk ["/a"] [0]%nat = Pending.
Proof.
  apply (loadProjects_blocked cut_manifest_disk ["/a"] [0]%nat
           ltac:(apply (bool_decide_unpack _); vm_compute; exact I) "/a").
  - apply (bool_decide_unpack _). vm_compute. exact I.
  - right. exists descriptor_a. split; vm_compute; reflexivity.
Defined.

Lemma loadProjects_any_order_witness :
  loadProjects twin_disk ["/a"; "/a2"] [0; 1]%nat
  = loadProjects twin_disk ["/a"; "/a2"] [1; 0]%nat.
Proof.
  apply (loadProjects_any_order twin_disk ["/a"; "/a2"]);
    apply (bool_decide_unpack _); vm_compute; exact I.
Defined.

Lemma loadProjects_skips_rejected_witness :
  loadProjects tidy_disk (["/b"] ++ "/b" :: ["/a"]) [2; 0; 1]%nat
  = loadProjects tidy_disk (["/b"] ++ ["/a"]) [1; 0]%nat.
Proof.
  apply (loadProjects_skips_rejected tidy_disk ["/b"] ["/a"] "/b"
           (SystemError "ENOENT")).
  - apply (bool_decide_unpack _). vm_compute. exact I.
  - apply (bool_decide_unpack _). vm_compute. exact I.
  - vm_compute. reflexivity.
Defined.

Lemma manifest_path_missing_witness :
  loadManifestJson tidy_disk "/a" descriptor_a2 = Rejected TypeError
  /\ writeManifestJson tidy_disk "/a" descriptor_a2 manifest_a
     = (Rejected TypeError, tidy_disk).
Proof.
  apply (manifest_path_missing tidy_disk "/a" descriptor_a2 manifest_a).
  reflexivity.
Defined.

Lemma writeManifestJson_then_loadManifestJson_witness :
  fst (writeManifestJson tidy_disk "/a" descriptor_a manifest_rich)
  = Fulfilled manifest_rich
  /\ loadManifestJson
       (snd (writeManifestJson tidy_disk "/a" descriptor_a manifest_rich))
       "/a" descriptor_a
     = Fulfilled (kept manifest_rich)
  /\ (is_json manifest_rich = true -> kept manifest_rich = manifest_rich).
Proof.
  apply (writeManifestJson_then_loadManifestJson tidy_disk "/a" descriptor_a
           manifest_rich "src/manifest.json").
  - reflexivity.
  - vm_compute. reflexivity.
  - reflexivity.
Defined.

Lemma writeManifestJson_then_loadProject_witness :
  exists record,
    loadProject
      (snd (writeManifestJson tidy_disk "/a" descriptor_a sparse_record)) "/a"
    = Fulfilled record
    /\ field record "__skpm_manifest"
       = VObj [("name", VStr "a"); ("tags", VArr [VNull; VNum 1] [])]
    /\ forall k, k ∉ reserved_keys -> field record k = field descriptor_a k.
Proof.
  apply (writeManifestJson_then_loadProject tidy_disk "/a" descriptor_a
           sparse_record "src/manifest.json").
  - vm_compute. reflexivity.
  - reflexivity.
  - vm_compute. discriminate.
  - vm_compute. reflexivity.
  - reflexivity.
Defined.

Lemma writePackageJson_keeps_witness :
  fst (writePackageJson tidy_disk "/a" sparse_record) = Fulfilled sparse_record
  /\ loadPackageJson (snd (writePackageJson tidy_disk "/a" sparse_record)) "/a"
     = Fulfilled (VObj [("name", VStr "a"); ("tags", VArr [VNull; VNum 1] [])])
  /\ (is_json sparse_record = true -> kept sparse_record = sparse_record).
Proof.
  apply (writePackageJson_keeps tidy_disk "/a" sparse_record).
  - vm_compute. reflexivity.
  - reflexivity.
Defined.

Lemma writePackageJson_then_loadProject_witness :
  exists record,
    loadProject (snd (writePackageJson tidy_disk "/a" manifest_rich)) "/a"
    = Fulfilled record
    /\ forall k, k ∉ reserved_keys ->
                 field record k = field (kept manifest_rich) k.
Proof.
  apply (writePackageJson_then_loadProject tidy_disk "/a" manifest_rich).
  - vm_compute. reflexivity.
  - reflexivity.
  - reflexivity.
  - vm_compute. discriminate.
Defined.

Lemma loadProjectDependencies_unsettled_witness :
  loadProjectDependencies cut_dependency_disk "/a" queue_a [2; 0; 1]%nat
  = Pending.
Proof.
  apply (loadProjectDependencies_unsettled cut_dependency_disk "/a" queue_a
           [2; 0; 1]%nat
           ltac:(apply (bool_decide_unpack _); vm_compute; exact I)
           {| name := "foo"; location := devDependencies |}).
  - intros d Hd.
    repeat (apply elem_of_cons in Hd as [->|Hd]; [vm_compute; reflexivity|]).
    inversion Hd.
  - left.
  - vm_compute. reflexivity.
Defined.

Lemma loadProjectDependencies_results_witness :
  exists d record,
    d ∈ queue_a
    /\ loadProjectDependency tidy_disk "/a" (name d) (location d)
       = Fulfilled dependency_foo
    /\ dependency_foo = VObj record
    /\ own record "status" = VStr "idle"
    /\ own record "location" = VStr (location_name (location d)).
Proof.
  apply (loadProjectDependencies_results tidy_disk "/a" queue_a [2; 0; 1]%nat
           ltac:(apply (bool_decide_unpack _); vm_compute; exact I)
           [dependency_foo; dependency_foo] dependency_foo).
  - vm_compute. reflexivity.
  - left.
Defined.

Lemma loadProjectDependencies_any_order_witness :
  (forall l, loadProjectDependencies locked_disk "/a" queue_a [0; 1; 2]%nat
             = Fulfilled l
             <-> loadProjectDependencies locked_disk "/a" queue_a [2; 1; 0]%nat
                 = Fulfilled l)
  /\ ((exists e, loadProjectDependencies locked_disk "/a" queue_a [0; 1; 2]%nat
                 = Rejected e)
      <-> exists e, loadProjectDependencies locked_disk "/a" queue_a
                      [2; 1; 0]%nat
                    = Rejected e)
  /\ (loadProjectDependencies locked_disk "/a" queue_a [0; 1; 2]%nat = Pending
      <-> loadProjectDependencies locked_disk "/a" queue_a [2; 1; 0]%nat
          = Pending).
Proof.
  apply (loadProjectDependencies_any_order locked_disk "/a" queue_a);
    apply (bool_decide_unpack _); vm_compute; exact I.
Defined.

Lemma loadAllProjectDependencies_nothing_declared_witness :
  loadAllProjectDependencies twin_disk "/a2" [] = Fulfilled ∅.
Proof.
  apply (loadAllProjectDependencies_nothing_declared twin_disk "/a2" []
           descriptor_a2).
  - vm_compute. reflexivity.
  - discriminate.
  - reflexivity.
Defined.

Lemma loadAllProjectDependencies_entries_witness :
  exists dependenciesByName,
    loadAllProjectDependencies tidy_disk "/a" [1; 2; 0]%nat
    = Fulfilled dependenciesByName
    /\ (forall n,
          dependenciesByName !! n
          = if bool_decide (n ∈ declared descriptor_a)
            then resolved tidy_disk "/a" (located descriptor_a n)
            else None)
    /\ (forall n dependency,
          dependenciesByName !! n = Some dependency ->
          field dependency "location"
          = VStr (if includes (devDeps_of descriptor_a) n
                  then "devDependencies" else "dependencies")).
Proof.
  apply (loadAllProjectDependencies_entries tidy_disk "/a" [1; 2; 0]%nat
           descriptor_a queue_a).
  - vm_compute. reflexivity.
  - reflexivity.
  - apply (bool_decide_unpack _). vm_compute. exact I.
  - intros n Hn. change (declared descriptor_a) with ["foo"; "bar"; "foo"] in Hn.
    repeat (apply elem_of_cons in Hn as [->|Hn]; [vm_compute; reflexivity|]).
    inversion Hn.
  - intros n installedJson Hn.
    change (declared descriptor_a) with ["foo"; "bar"; "foo"] in Hn.
    repeat (apply elem_of_cons in Hn as [->|Hn];
            [vm_compute; try discriminate; intros [= <-]; reflexivity|]).
    inversion Hn.
Defined.

Lemma loadAllProjectDependencies_any_order_witness :
  loadAllProjectDependencies locked_disk "/a" [0; 1; 2]%nat
  = loadAllProjectDependencies locked_disk "/a" [2; 1; 0]%nat.
Proof.
  apply (loadAllProjectDependencies_any_order locked_disk "/a" descriptor_a
           queue_a).
  - vm_compute. reflexivity.
  - reflexivity.
  - apply (bool_decide_unpack _). vm_compute. exact I.
  - apply (bool_decide_unpack _). vm_compute. exact I.
Defined.


